(** * QlogConnection: a single qlog trace and its category/type index

    Shallow embedding of [visualizations/src/data/Connection.ts].

    JavaScript objects that are shared by reference (connections, connection
    groups, event parsers) live in an object store and are named by their
    index in it; methods are state transformers over that store that either
    return a value or throw.  The two-level [Map] of the class is a [gmap]
    of [gmap]s keyed by strings, event arrays are lists. *)

From Stdlib Require Import ZArith.
From stdpp Require Import gmap strings list fin_maps.

Open Scope string_scope.
Open Scope list_scope.
Set Warnings "-register-all".

(** ** JavaScript values held by a trace *)

Module Js.

(** Numbers: the finite doubles other than [-0] are named by a mantissa and
    a binary exponent; nothing below computes with them. *)
Inductive Num : Type :=
| NaN
| Infinity (negative : bool)
| NegativeZero
| Finite (mantissa exponent : Z).

Definition isFinite (n : Num) : bool :=
  match n with NaN | Infinity _ => false | NegativeZero | Finite _ _ => true end.

Definition zero : Num := Finite 0 0.

(** The values an event or a metadata field can hold ([any]): plain data,
    and the values [JSON.stringify] does not write.  An object is a plain
    data object (no [toJSON] method, no accessors), given by its list of own
    enumerable properties in enumeration order; [Function] stands for a
    function or a symbol; [Circular] is a reference back to an array or
    object that contains it. *)
Inductive Value : Type :=
| Undefined
| Null
| Bool (b : bool)
| Number (n : Num)
| BigInt (z : Z)
| String (s : string)
| Function
| Array (elems : list Value)
| Object (props : list (string * Value))
| Circular.

(** What [JSON.stringify] does with a value: it returns a text, given here
    by the value [JSON.parse] reads back from it; it returns [undefined];
    or it throws a TypeError. *)
Inductive Stringified : Type :=
| Text (parsed : Value)
| Omitted
| Rejected.

(** [JSON.stringify] followed by [JSON.parse], after SerializeJSONProperty:
    [undefined], functions and symbols are not written (the property is
    left out of an object, and [null] is written inside an array); a number
    that is not finite is written as [null] and [-0] as [0]; a bigint or a
    circular reference makes the whole call throw. *)
Fixpoint serialize (v : Value) : Stringified :=
  match v with
  | Undefined | Function => Omitted
  | Null => Text Null
  | Bool b => Text (Bool b)
  | Number n =>
      Text (match n with
            | Finite _ _ => Number n
            | NegativeZero => Number zero
            | NaN | Infinity _ => Null
            end)
  | String s => Text (String s)
  | BigInt _ | Circular => Rejected
  | Array elems =>
      match
        (fix elements (xs : list Value) : option (list Value) :=
           match xs with
           | [] => Some []
           | x :: rest =>
               match serialize x with
               | Text y => cons y <$> elements rest
               | Omitted => cons Null <$> elements rest
               | Rejected => None
               end
           end) elems
      with
      | Some ys => Text (Array ys)
      | None => Rejected
      end
  | Object props =>
      match
        (fix members (ps : list (string * Value)) : option (list (string * Value)) :=
           match ps with
           | [] => Some []
           | (k, x) :: rest =>
               match serialize x with
               | Text y => cons (k, y) <$> members rest
               | Omitted => members rest
               | Rejected => None
               end
           end) props
      with
      | Some qs => Text (Object qs)
      | None => Rejected
      end
  end.

(** An element of an array after the round trip, when there is one. *)
Definition element (v : Value) : Value :=
  match serialize v with Text y => y | Omitted | Rejected => Null end.

(** The round trip of the elements of an array; [None] when the call
    throws. *)
Fixpoint elements (xs : list Value) : option (list Value) :=
  match xs with
  | [] => Some []
  | x :: rest =>
      match serialize x with
      | Text y => cons y <$> elements rest
      | Omitted => cons Null <$> elements rest
      | Rejected => None
      end
  end.

(** The round trip of the properties of an object. *)
Fixpoint members (ps : list (string * Value)) : option (list (string * Value)) :=
  match ps with
  | [] => Some []
  | (k, x) :: rest =>
      match serialize x with
      | Text y => cons (k, y) <$> members rest
      | Omitted => members rest
      | Rejected => None
      end
  end.

(** Values that the JSON text format represents exactly. *)
Fixpoint representable (v : Value) : bool :=
  match v with
  | Undefined | Function | BigInt _ | Circular => false
  | Null | Bool _ | String _ => true
  | Number n => match n with Finite _ _ => true | _ => false end
  | Array elems => forallb representable elems
  | Object props =>
      (fix members (ps : list (string * Value)) : bool :=
         match ps with
         | [] => true
         | (_, x) :: rest => representable x && members rest
         end) props
  end.

End Js.

(** ** Outcomes of a method call *)

Inductive JsError : Type :=
| TypeError    (* property access on [undefined]; [JSON.stringify] giving up *)
| SyntaxError  (* [JSON.parse] of a text that is not JSON *)
| DataError.   (* signalled by the parser for an event it cannot resolve *)

(** [Wrong] is not a JavaScript outcome: it marks a reference that does not
    name an object of the store, which no execution produces. *)
Inductive Completion (A : Type) : Type :=
| Return (a : A)
| Throw (e : JsError)
| Wrong.
Arguments Return {A} a.
Arguments Throw {A} e.
Arguments Wrong {A}.

(** ** Data model *)

Definition loc := nat.

(** [IQlogRawEvent = Array<any>] *)
Definition RawEvent := list Js.Value.

(** Modelled from the spec: [IQlogEvent], the view returned by
    [IQlogEventParser.load] ('@/data/QlogEventParser' is not part of the
    sources).  It exposes the named fields of one raw event. *)
Record IQlogEvent : Type := {
  time : Js.Value;
  category : string;
  name : string;
  data : Js.Value;
}.

Record QlogConnection : Type := {
  parent : loc;
  title : string;
  description : string;
  eventFieldNames : list string;
  commonFields : Js.Value;
  configuration : Js.Value;
  vantagePoint : Js.Value;
  events : list RawEvent;
  events_isVue : bool;
  lookupTable : gmap string (gmap string (list RawEvent));
  lookupTable_isVue : bool;
  eventParser : option loc;
}.

(** Modelled from the spec: [IQlogEventParser] ('@/data/QlogEventParser' is
    not part of the sources): an implementation of the interface, with the
    state that [init] derives from the trace it binds the parser to.
    [load] is deterministic with respect to that binding; [None] is the
    failure it signals when the category or the name of the event cannot be
    resolved. *)
Record IQlogEventParser : Type := {
  parserState : Type;
  init : parserState -> QlogConnection -> parserState;
  load : parserState -> RawEvent -> option IQlogEvent;
}.

(** A parser object of the store.  [currentEvent] is the internal property
    that every [load] updates (lines 68 to 70 of the source). *)
Record ParserObject : Type := {
  parser_isVue : bool;
  class : IQlogEventParser;
  state : parserState class;
  currentEvent : option RawEvent;
}.

(** What [parser.load(evt)] yields on the object as it stands. *)
Definition loadOf (o : ParserObject) (evt : RawEvent) : option IQlogEvent :=
  load (class o) (state o) evt.

Definition withCurrentEvent (evt : option RawEvent) (o : ParserObject) : ParserObject :=
  {| parser_isVue := parser_isVue o; class := class o; state := state o;
     currentEvent := evt |}.

(** Modelled from the spec: [QlogConnectionGroup] ('@/data/ConnectionGroup'
    is not part of the sources).  The group keeps the list of the traces
    registered with it; [groupInfo] stands for its other contents. *)
Record QlogConnectionGroup : Type := {
  groupInfo : Js.Value;
  connections : list loc;
}.

(** Modelled from the spec: [QlogConnectionGroup.addConnection], the
    registration of a trace with its parent group: the trace is appended to
    the group's connection list. *)
Definition addConnection (g : QlogConnectionGroup) (c : loc) : QlogConnectionGroup :=
  {| groupInfo := groupInfo g; connections := connections g ++ [c] |}.

(** The object store.  [loadCalls] records every invocation of a parser's
    [load], oldest first. *)
Record Heap : Type := {
  heapConnections : list QlogConnection;
  heapGroups : list QlogConnectionGroup;
  heapParsers : list ParserObject;
  loadCalls : list (loc * RawEvent);
}.

(** ** Store transformers *)

Definition M (A : Type) : Type := Heap -> Heap * Completion A.

Definition ret {A : Type} (a : A) : M A := fun h => (h, Return a).

Definition throw {A : Type} (e : JsError) : M A := fun h => (h, Throw e).

Definition bind {A B : Type} (m : M A) (k : A -> M B) : M B :=
  fun h =>
    match m h with
    | (h', Return a) => k a h'
    | (h', Throw e) => (h', Throw e)
    | (h', Wrong) => (h', Wrong)
    end.

Notation "'let*' x ':=' m 'in' k" := (bind m (fun x => k))
  (at level 10, x pattern, m at level 100, k at level 200).
Notation "m ';;' k" := (bind m (fun _ => k))
  (at level 100, k at level 200, right associativity).

(** [for (const x of xs) body] *)
Fixpoint forOf {A : Type} (xs : list A) (body : A -> M unit) : M unit :=
  match xs with
  | [] => ret tt
  | x :: rest => body x ;; forOf rest body
  end.

Definition setHeapConnections (cs : list QlogConnection) (h : Heap) : Heap :=
  {| heapConnections := cs; heapGroups := heapGroups h;
     heapParsers := heapParsers h; loadCalls := loadCalls h |}.

Definition setHeapGroups (gs : list QlogConnectionGroup) (h : Heap) : Heap :=
  {| heapConnections := heapConnections h; heapGroups := gs;
     heapParsers := heapParsers h; loadCalls := loadCalls h |}.

Definition setHeapParsers (ps : list ParserObject) (h : Heap) : Heap :=
  {| heapConnections := heapConnections h; heapGroups := heapGroups h;
     heapParsers := ps; loadCalls := loadCalls h |}.

Definition setLoadCalls (l : list (loc * RawEvent)) (h : Heap) : Heap :=
  {| heapConnections := heapConnections h; heapGroups := heapGroups h;
     heapParsers := heapParsers h; loadCalls := l |}.

(** Reading and updating the object behind a reference. *)
Definition getConnection (this : loc) : M QlogConnection :=
  fun h =>
    match heapConnections h !! this with
    | Some c => (h, Return c)
    | None => (h, Wrong)
    end.

Definition modifyConnection (this : loc) (f : QlogConnection -> QlogConnection) : M unit :=
  fun h =>
    match heapConnections h !! this with
    | Some c => (setHeapConnections (<[this := f c]> (heapConnections h)) h, Return tt)
    | None => (h, Wrong)
    end.

Definition getParser (p : loc) : M ParserObject :=
  fun h =>
    match heapParsers h !! p with
    | Some o => (h, Return o)
    | None => (h, Wrong)
    end.

Definition modifyParser (p : loc) (f : ParserObject -> ParserObject) : M unit :=
  fun h =>
    match heapParsers h !! p with
    | Some o => (setHeapParsers (<[p := f o]> (heapParsers h)) h, Return tt)
    | None => (h, Wrong)
    end.

Definition modifyGroup (g : loc) (f : QlogConnectionGroup -> QlogConnectionGroup) : M unit :=
  fun h =>
    match heapGroups h !! g with
    | Some o => (setHeapGroups (<[g := f o]> (heapGroups h)) h, Return tt)
    | None => (h, Wrong)
    end.

(** [new] of a connection object: the next free reference. *)
Definition allocConnection (c : QlogConnection) : M loc :=
  fun h =>
    (setHeapConnections (heapConnections h ++ [c]) h,
     Return (length (heapConnections h))).

(** Field assignments [this.f = v]. *)
Section Fields.
Let mk := Build_QlogConnection.

Definition withParent (v : loc) (c : QlogConnection) : QlogConnection :=
  mk v (title c) (description c) (eventFieldNames c) (commonFields c)
     (configuration c) (vantagePoint c) (events c) (events_isVue c)
     (lookupTable c) (lookupTable_isVue c) (eventParser c).

Definition withTitle (v : string) (c : QlogConnection) : QlogConnection :=
  mk (parent c) v (description c) (eventFieldNames c) (commonFields c)
     (configuration c) (vantagePoint c) (events c) (events_isVue c)
     (lookupTable c) (lookupTable_isVue c) (eventParser c).

Definition withDescription (v : string) (c : QlogConnection) : QlogConnection :=
  mk (parent c) (title c) v (eventFieldNames c) (commonFields c)
     (configuration c) (vantagePoint c) (events c) (events_isVue c)
     (lookupTable c) (lookupTable_isVue c) (eventParser c).

Definition withEventFieldNames (v : list string) (c : QlogConnection) : QlogConnection :=
  mk (parent c) (title c) (description c) v (commonFields c)
     (configuration c) (vantagePoint c) (events c) (events_isVue c)
     (lookupTable c) (lookupTable_isVue c) (eventParser c).

Definition withCommonFields (v : Js.Value) (c : QlogConnection) : QlogConnection :=
  mk (parent c) (title c) (description c) (eventFieldNames c) v
     (configuration c) (vantagePoint c) (events c) (events_isVue c)
     (lookupTable c) (lookupTable_isVue c) (eventParser c).

Definition withConfiguration (v : Js.Value) (c : QlogConnection) : QlogConnection :=
  mk (parent c) (title c) (description c) (eventFieldNames c) (commonFields c)
     v (vantagePoint c) (events c) (events_isVue c)
     (lookupTable c) (lookupTable_isVue c) (eventParser c).

Definition withVantagePoint (v : Js.Value) (c : QlogConnection) : QlogConnection :=
  mk (parent c) (title c) (description c) (eventFieldNames c) (commonFields c)
     (configuration c) v (events c) (events_isVue c)
     (lookupTable c) (lookupTable_isVue c) (eventParser c).

(** [events] is always assigned an array that has just been marked
    [_isVue]. *)
Definition withEvents (v : list RawEvent) (c : QlogConnection) : QlogConnection :=
  mk (parent c) (title c) (description c) (eventFieldNames c) (commonFields c)
     (configuration c) (vantagePoint c) v true
     (lookupTable c) (lookupTable_isVue c) (eventParser c).

Definition withLookupTable (v : gmap string (gmap string (list RawEvent)))
    (c : QlogConnection) : QlogConnection :=
  mk (parent c) (title c) (description c) (eventFieldNames c) (commonFields c)
     (configuration c) (vantagePoint c) (events c) (events_isVue c)
     v (lookupTable_isVue c) (eventParser c).

Definition withEventParser (v : option loc) (c : QlogConnection) : QlogConnection :=
  mk (parent c) (title c) (description c) (eventFieldNames c) (commonFields c)
     (configuration c) (vantagePoint c) (events c) (events_isVue c)
     (lookupTable c) (lookupTable_isVue c) v.
End Fields.

(** ** The class [QlogConnection] *)

(** [JSON.parse( JSON.stringify(v) )]: when [JSON.stringify] returns
    [undefined], [JSON.parse] reads it as the text "undefined" and rejects
    it. *)
Definition jsonRoundTrip (v : Js.Value) : M Js.Value :=
  match Js.serialize v with
  | Js.Text v' => ret v'
  | Js.Omitted => throw SyntaxError
  | Js.Rejected => throw TypeError
  end.

(** The round trip of [this.events], an array of arrays; [None] when
    [JSON.stringify] throws. *)
Fixpoint jsonEvents (evs : list RawEvent) : option (list RawEvent) :=
  match evs with
  | [] => Some []
  | evt :: rest =>
      match Js.elements evt with
      | Some evt' => cons evt' <$> jsonEvents rest
      | None => None
      end
  end.

Definition jsonRoundTripEvents (evs : list RawEvent) : M (list RawEvent) :=
  match jsonEvents evs with
  | Some evs' => ret evs'
  | None => throw TypeError
  end.

(** [constructor(parent)] *)
Definition newQlogConnection (parentGroup : loc) : M loc :=
  let* this := allocConnection
    {| parent := parentGroup;
       title := "NewConnection";
       description := EmptyString;
       eventFieldNames := [];
       commonFields := Js.Object [];
       configuration :=
         Js.Object [("time_offset", Js.String "0"); ("time_units", Js.String "ms");
                    ("original_uris", Js.Array [])];
       vantagePoint := Js.Undefined;
       events := [];
       events_isVue := true;
       lookupTable := ∅;
       lookupTable_isVue := false;
       eventParser := None |} in
  modifyGroup parentGroup (fun g => addConnection g this) ;;
  modifyConnection this (fun c =>
    Build_QlogConnection (parent c) (title c) (description c) (eventFieldNames c)
      (commonFields c) (configuration c) (vantagePoint c) (events c)
      (events_isVue c) ∅ true (eventParser c)) ;;
  ret this.

(** [clone()] *)
Definition clone (this : loc) : M loc :=
  let* self := getConnection this in
  let* output := newQlogConnection (parent self) in
  modifyConnection output (withTitle (title self)) ;;
  modifyConnection output (withDescription (description self)) ;;
  modifyConnection output (withEventFieldNames (eventFieldNames self)) ;;
  let* cf := jsonRoundTrip (commonFields self) in
  modifyConnection output (withCommonFields cf) ;;
  let* conf := jsonRoundTrip (configuration self) in
  modifyConnection output (withConfiguration conf) ;;
  let* vp := jsonRoundTrip (vantagePoint self) in
  modifyConnection output (withVantagePoint vp) ;;
  let* events := jsonRoundTripEvents (events self) in
  modifyConnection output (withEvents events) ;;
  modifyConnection output (withEventParser (eventParser self)) ;;
  ret output.

(** [setEventParser(parser)] *)
Definition setEventParser (this : loc) (parser : loc) : M unit :=
  modifyParser parser (fun o =>
    {| parser_isVue := true; class := class o; state := state o;
       currentEvent := currentEvent o |}) ;;
  modifyConnection this (withEventParser (Some parser)) ;;
  let* self := getConnection this in
  modifyParser parser (fun o =>
    {| parser_isVue := parser_isVue o; class := class o;
       state := init (class o) (state o) self;
       currentEvent := currentEvent o |}).

(** [getEventParser()] *)
Definition getEventParser (this : loc) : M (option loc) :=
  let* self := getConnection this in
  ret (eventParser self).

(** What a call of [load] that yields [r] completes with. *)
Definition completion (r : option IQlogEvent) : Completion IQlogEvent :=
  match r with
  | Some view => Return view
  | None => Throw DataError
  end.

(** A call [parser.load(evt)]: it is recorded in [loadCalls], it makes
    [evt] the parser's current event, and it returns the view or throws. *)
Definition callLoad (parser : loc) (evt : RawEvent) : M IQlogEvent :=
  let* o := getParser parser in
  modifyParser parser (withCurrentEvent (Some evt)) ;;
  fun h =>
    (setLoadCalls (loadCalls h ++ [(parser, evt)]) h, completion (loadOf o evt)).

(** [parseEvent(evt)]: reading [load] off an [eventParser] that is
    [undefined] throws. *)
Definition parseEvent (this : loc) (evt : RawEvent) : M IQlogEvent :=
  let* self := getConnection this in
  match eventParser self with
  | None => throw TypeError
  | Some parser => callLoad parser evt
  end.

(** [setEvents(events)] *)
Definition setEvents (this : loc) (events : list RawEvent) : M unit :=
  modifyConnection this (withEvents events).

(** [getEvents()] *)
Definition getEvents (this : loc) : M (list RawEvent) :=
  let* self := getConnection this in
  ret (events self).

(** Lines 115 to 124 of [setupLookupTable], on the table alone. *)
Definition bucketEvent (table : gmap string (gmap string (list RawEvent)))
    (category eventType : string) (evt : RawEvent)
    : gmap string (gmap string (list RawEvent)) :=
  let table :=
    if decide (is_Some (table !! category)) then table
    else <[category := ∅]> table in
  match table !! category with
  | None => table
  | Some categoryDictionary =>
      let categoryDictionary :=
        if decide (is_Some (categoryDictionary !! eventType)) then categoryDictionary
        else <[eventType := []]> categoryDictionary in
      match categoryDictionary !! eventType with
      | None => table
      | Some bucket =>
          <[category := <[eventType := bucket ++ [evt]]> categoryDictionary]> table
      end
  end.

(** The body of the loop of [setupLookupTable]: lines 112 to 124. *)
Definition bucketing (this : loc) (evt : RawEvent) : M unit :=
  let* category := (let* v := parseEvent this evt in ret (category v)) in
  let* eventType := (let* v := parseEvent this evt in ret (name v)) in
  modifyConnection this (fun c =>
    withLookupTable (bucketEvent (lookupTable c) category eventType evt) c).

(** [setupLookupTable()] *)
Definition setupLookupTable (this : loc) : M unit :=
  let* self := getConnection this in
  if decide (size (lookupTable self) ≠ 0) then ret tt
  else forOf (events self) (bucketing this).

(** [lookup(category, eventType)] *)
Definition lookup (this : loc) (category eventType : string) : M (list RawEvent) :=
  let* self := getConnection this in
  match lookupTable self !! category with
  | Some categoryDictionary =>
      match categoryDictionary !! eventType with
      | Some bucket => ret bucket
      | None => ret []
      end
  | None => ret []
  end.

(** ** Sequences of calls made by a client of the class

    The methods of the class, and assignments to its public data fields. *)

Inductive Op : Type :=
| OpNew (parentGroup : loc)
| OpAssignParent (this : loc) (g : loc)
| OpAssignTitle (this : loc) (v : string)
| OpAssignDescription (this : loc) (v : string)
| OpAssignEventFieldNames (this : loc) (names : list string)
| OpAssignCommonFields (this : loc) (v : Js.Value)
| OpAssignConfiguration (this : loc) (v : Js.Value)
| OpAssignVantagePoint (this : loc) (v : Js.Value)
| OpClone (this : loc)
| OpSetEventParser (this parser : loc)
| OpGetEventParser (this : loc)
| OpParseEvent (this : loc) (evt : RawEvent)
| OpSetEvents (this : loc) (events : list RawEvent)
| OpGetEvents (this : loc)
| OpSetupLookupTable (this : loc)
| OpLookup (this : loc) (category eventType : string).

Definition perform (op : Op) : M unit :=
  match op with
  | OpNew g => newQlogConnection g ;; ret tt
  | OpAssignParent t g => modifyConnection t (withParent g)
  | OpAssignTitle t v => modifyConnection t (withTitle v)
  | OpAssignDescription t v => modifyConnection t (withDescription v)
  | OpAssignEventFieldNames t names => modifyConnection t (withEventFieldNames names)
  | OpAssignCommonFields t v => modifyConnection t (withCommonFields v)
  | OpAssignConfiguration t v => modifyConnection t (withConfiguration v)
  | OpAssignVantagePoint t v => modifyConnection t (withVantagePoint v)
  | OpClone t => clone t ;; ret tt
  | OpSetEventParser t p => setEventParser t p
  | OpGetEventParser t => getEventParser t ;; ret tt
  | OpParseEvent t evt => parseEvent t evt ;; ret tt
  | OpSetEvents t evs => setEvents t evs
  | OpGetEvents t => getEvents t ;; ret tt
  | OpSetupLookupTable t => setupLookupTable t
  | OpLookup t c ty => lookup t c ty ;; ret tt
  end.

(** The store after a sequence of calls; a call that throws is caught by
    the caller, who carries on with the store as the call left it. *)
Fixpoint runOps (ops : list Op) (h : Heap) : Heap :=
  match ops with
  | [] => h
  | op :: rest => runOps rest (fst (perform op h))
  end.

(** ** Pure views used in the statements *)

(** What [lookup] reads off a table. *)
Definition tableLookup (table : gmap string (gmap string (list RawEvent)))
    (category eventType : string) : list RawEvent :=
  match table !! category with
  | Some categoryDictionary => default [] (categoryDictionary !! eventType)
  | None => []
  end.

(** The events the loop of [setupLookupTable] gets through: those before
    the first one on which [load] fails. *)
Fixpoint resolved (f : RawEvent -> option IQlogEvent) (evs : list RawEvent)
    : list RawEvent :=
  match evs with
  | [] => []
  | evt :: rest =>
      match f evt with
      | Some _ => evt :: resolved f rest
      | None => []
      end
  end.

(** The table after the loop of [setupLookupTable] has run over [evs],
    [load] acting as [f]. *)
Fixpoint buildTable (f : RawEvent -> option IQlogEvent) (evs : list RawEvent)
    (table : gmap string (gmap string (list RawEvent)))
    : gmap string (gmap string (list RawEvent)) :=
  match evs with
  | [] => table
  | evt :: rest =>
      match f evt with
      | Some view => buildTable f rest (bucketEvent table (category view) (name view) evt)
      | None => table
      end
  end.

(** The calls of [load] made by that loop, *)
Fixpoint buildCalls (p : loc) (f : RawEvent -> option IQlogEvent)
    (evs : list RawEvent) : list (loc * RawEvent) :=
  match evs with
  | [] => []
  | evt :: rest =>
      match f evt with
      | Some _ => (p, evt) :: (p, evt) :: buildCalls p f rest
      | None => [(p, evt)]
      end
  end.

(** the current event of the parser after it, *)
Fixpoint lastLoaded (f : RawEvent -> option IQlogEvent) (evs : list RawEvent)
    (current : option RawEvent) : option RawEvent :=
  match evs with
  | [] => current
  | evt :: rest =>
      match f evt with
      | Some _ => lastLoaded f rest (Some evt)
      | None => Some evt
      end
  end.

(** and how it completes. *)
Fixpoint buildOutcome (f : RawEvent -> option IQlogEvent) (evs : list RawEvent)
    : Completion unit :=
  match evs with
  | [] => Return tt
  | evt :: rest =>
      match f evt with
      | Some _ => buildOutcome f rest
      | None => Throw DataError
      end
  end.

(** The parser object [o] resolves [evt] to the category [c] and the
    type [t]. *)
Definition keyed (o : ParserObject) (c t : string) (evt : RawEvent) : Prop :=
  match loadOf o evt with
  | Some view => category view = c ∧ name view = t
  | None => False
  end.

#[local] Instance keyed_dec o c t evt : Decision (keyed o c t evt).
Proof. unfold keyed. destruct (loadOf o evt); apply _. Defined.

(** The store once the loop has run over [evs]. *)
Definition built (this p : loc) (o : ParserObject) (c : QlogConnection)
    (evs : list RawEvent) (h : Heap) : Heap :=
  setLoadCalls (loadCalls h ++ buildCalls p (loadOf o) evs)
    (setHeapParsers
       (<[p := withCurrentEvent (lastLoaded (loadOf o) evs (currentEvent o)) o]>
          (heapParsers h))
       (setHeapConnections
          (<[this := withLookupTable (buildTable (loadOf o) evs (lookupTable c)) c]>
             (heapConnections h)) h)).

(** The object that [new QlogConnection(parentGroup)] leaves in the store. *)
Definition constructed (parentGroup : loc) : QlogConnection :=
  {| parent := parentGroup;
     title := "NewConnection";
     description := EmptyString;
     eventFieldNames := [];
     commonFields := Js.Object [];
     configuration :=
       Js.Object [("time_offset", Js.String "0"); ("time_units", Js.String "ms");
                  ("original_uris", Js.Array [])];
     vantagePoint := Js.Undefined;
     events := [];
     events_isVue := true;
     lookupTable := ∅;
     lookupTable_isVue := true;
     eventParser := None |}.

(** The object that a [clone()] of [self] that returns leaves in the store,
    [cf], [conf], [vp] and [evs] being the copies of the three metadata
    objects and of the events. *)
Definition cloned (self : QlogConnection) (cf conf vp : Js.Value)
    (evs : list RawEvent) : QlogConnection :=
  {| parent := parent self;
     title := title self;
     description := description self;
     eventFieldNames := eventFieldNames self;
     commonFields := cf;
     configuration := conf;
     vantagePoint := vp;
     events := evs;
     events_isVue := true;
     lookupTable := ∅;
     lookupTable_isVue := true;
     eventParser := eventParser self |}.

(** [clone()] finds everything it copies writable as JSON. *)
Definition clonable (c : QlogConnection) : Prop :=
  exists cf conf vp evs,
    Js.serialize (commonFields c) = Js.Text cf ∧
    Js.serialize (configuration c) = Js.Text conf ∧
    Js.serialize (vantagePoint c) = Js.Text vp ∧
    jsonEvents (events c) = Some evs.

(** The store in which trace [out] has just been constructed under the
    group [g], and holds [c] by now. *)
Definition registered (h : Heap) (g : loc) (grp : QlogConnectionGroup)
    (c : QlogConnection) : Heap :=
  {| heapConnections := heapConnections h ++ [c];
     heapGroups := <[g := addConnection grp (length (heapConnections h))]> (heapGroups h);
     heapParsers := heapParsers h;
     loadCalls := loadCalls h |}.

(** The parser object [o] once [setEventParser] has marked it and bound it
    to the trace [c]: [init] derives the state, and the current event is
    written by [load] only. *)
Definition bound (o : ParserObject) (c : QlogConnection) : ParserObject :=
  {| parser_isVue := true; class := class o;
     state := init (class o) (state o) c;
     currentEvent := currentEvent o |}.

(** The store after a call of [load] on the parser [p], which held [o]. *)
Definition afterLoad (p : loc) (o : ParserObject) (evt : RawEvent) (h : Heap) : Heap :=
  setLoadCalls (loadCalls h ++ [(p, evt)])
    (setHeapParsers (<[p := withCurrentEvent (Some evt) o]> (heapParsers h)) h).

(** The bucket of a (category, type) pair, when the table has one. *)
Definition bucketOf (table : gmap string (gmap string (list RawEvent)))
    (category eventType : string) : option (list RawEvent) :=
  table !! category ≫= (fun categoryDictionary => categoryDictionary !! eventType).

(** What the class keeps true of a store: the events array and the index
    of every trace are marked [_isVue], the parent of every trace is a
    group of the store and every trace is in the connection list of a group
    (the one it was constructed under), and a parser attached to a trace is
    an object of the store that is marked [_isVue]. *)
Definition consistent (h : Heap) : Prop :=
  forall t c,
    heapConnections h !! t = Some c ->
    events_isVue c = true ∧
    lookupTable_isVue c = true ∧
    is_Some (heapGroups h !! parent c) ∧
    (exists g grp, heapGroups h !! g = Some grp ∧ t ∈ connections grp) ∧
    (forall p, eventParser c = Some p ->
       exists o, heapParsers h !! p = Some o ∧ parser_isVue o = true).

(** Every trace is in the connection list of its parent group. *)
Definition parented (h : Heap) : Prop :=
  forall t c,
    heapConnections h !! t = Some c ->
    exists grp, heapGroups h !! parent c = Some grp ∧ t ∈ connections grp.

(** Every group handed to the class, by [new QlogConnection(g)] or by an
    assignment to [parent], is in the store when it is handed over. *)
Fixpoint admissible (ops : list Op) (h : Heap) : Prop :=
  match ops with
  | [] => True
  | op :: rest =>
      match op with
      | OpNew g | OpAssignParent _ g => is_Some (heapGroups h !! g)
      | _ => True
      end ∧ admissible rest (fst (perform op h))
  end.

(** No assignment to [parent] in the sequence. *)
Definition assignsParent (op : Op) : bool :=
  match op with OpAssignParent _ _ => true | _ => false end.

Definition keepsParents (ops : list Op) : Prop :=
  forallb (fun op => negb (assignsParent op)) ops = true.

(** Trace [this] is in the store and its index is [T]. *)
Definition indexIs (this : loc) (T : gmap string (gmap string (list RawEvent)))
    (h : Heap) : Prop :=
  exists c, heapConnections h !! this = Some c ∧ lookupTable c = T.

(** A computation that leaves the index of trace [this] as [T], whether it
    returns or throws. *)
Definition keeps (this : loc) (T : gmap string (gmap string (list RawEvent)))
    {A : Type} (m : M A) : Prop :=
  forall h, indexIs this T h -> indexIs this T (fst (m h)).

(** ** The end-to-end scenario of the specification *)

Module Scenario.

Definition num (z : Z) : Js.Value := Js.Number (Js.Finite z 0).

Fixpoint indexOf (x : string) (l : list string) : option nat :=
  match l with
  | [] => None
  | y :: rest => if decide (x = y) then Some 0 else S <$> indexOf x rest
  end.

Definition field (names : list string) (f : string) (evt : RawEvent) : Js.Value :=
  match indexOf f names with
  | Some i => default Js.Undefined (evt !! i)
  | None => Js.Undefined
  end.

Definition text (v : Js.Value) : string :=
  match v with Js.String s => s | _ => EmptyString end.

(** A parser that finds the fields by the position of their names in the
    [eventFieldNames] of the trace it is bound to, and never fails. *)
Definition positional : IQlogEventParser :=
  {| parserState := list string;
     init := fun _ trace => eventFieldNames trace;
     load := fun names evt =>
       Some {| time := field names "time" evt;
               category := text (field names "category" evt);
               name := text (field names "name" evt);
               data := field names "data" evt |} |}.

(** The same parser, signalling an event whose category or name is not a
    string. *)
Definition strict : IQlogEventParser :=
  {| parserState := list string;
     init := fun _ trace => eventFieldNames trace;
     load := fun names evt =>
       match field names "category" evt, field names "name" evt with
       | Js.String c, Js.String n =>
           Some {| time := field names "time" evt; category := c; name := n;
                   data := field names "data" evt |}
       | _, _ => None
       end |}.

Definition fieldOrder : list string := ["time"; "category"; "name"; "data"].

Definition e0 : RawEvent :=
  [num 0; Js.String "transport"; Js.String "packet_sent"; Js.Object []].
Definition e1 : RawEvent :=
  [num 1; Js.String "transport"; Js.String "packet_received"; Js.Object []].
Definition e2 : RawEvent :=
  [num 2; Js.String "http"; Js.String "frame_sent"; Js.Object []].
Definition e3 : RawEvent :=
  [num 3; Js.String "transport"; Js.String "packet_sent"; Js.Object []].

(** An event without a category and a name. *)
Definition bad : RawEvent := [num 4].

(** A store with two empty groups and two parser objects. *)
Definition start : Heap :=
  {| heapConnections := [];
     heapGroups := [ {| groupInfo := Js.Object []; connections := [] |};
                     {| groupInfo := Js.Object []; connections := [] |} ];
     heapParsers := [ {| parser_isVue := false; class := positional; state := [];
                         currentEvent := None |};
                      {| parser_isVue := false; class := strict; state := [];
                         currentEvent := None |} ];
     loadCalls := [] |}.

(** [vantagePoint] and [eventFieldNames] are public fields, assigned by
    the code that loads a file. *)
Definition assign (this : loc) (f : QlogConnection -> QlogConnection) : M unit :=
  modifyConnection this f.

Definition client : Js.Value := Js.Object [("type", Js.String "client")].

(** A trace with the given events and parser, loaded the way a file loader
    does. *)
Definition loadedWith (parser : loc) (evs : list RawEvent) : M loc :=
  let* t := newQlogConnection 0 in
  assign t (withVantagePoint client) ;;
  assign t (withEventFieldNames fieldOrder) ;;
  setEvents t evs ;;
  setEventParser t parser ;;
  ret t.

Definition loaded (evs : list RawEvent) : M loc := loadedWith 0 evs.

Definition run {A : Type} (m : M A) : Heap * Completion A := m start.

Definition trace0 (h : Heap) : QlogConnection :=
  default (constructed 0) (heapConnections h !! 0).

(** The store with the scenario's trace loaded as trace 0, its index not
    built yet. *)
Definition fresh : Heap :=
  Eval vm_compute in fst (run (loaded [e0; e1; e2; e3])).

(** Trace 0 holds one event and has a parser; its index is not built. *)
Definition single : Heap := Eval vm_compute in fst (run (loaded [e0])).

(** Trace 0 holds one event and its index is built. *)
Definition indexed : Heap :=
  Eval vm_compute in fst (run (let* t := loaded [e0] in setupLookupTable t)).

(** Trace 0 of those stores, their first group and their parser once it
    is bound to trace 0. *)
Definition freshTrace : QlogConnection := Eval vm_compute in trace0 fresh.
Definition indexedTrace : QlogConnection := Eval vm_compute in trace0 indexed.
Definition group : QlogConnectionGroup :=
  {| groupInfo := Js.Object []; connections := [0] |}.
Definition parser : ParserObject :=
  {| parser_isVue := true; class := positional; state := fieldOrder;
     currentEvent := None |}.
Definition parserAfterBuild : ParserObject :=
  {| parser_isVue := true; class := positional; state := fieldOrder;
     currentEvent := Some e0 |}.

(** Group 0 holds one trace, just constructed. *)
Definition blank : Heap := Eval vm_compute in fst (run (newQlogConnection 0)).
Definition constructedTrace : QlogConnection := Eval vm_compute in trace0 blank.

(** A trace with the given events and a vantage point, without parser. *)
Definition holding (evs : list RawEvent) : M unit :=
  let* t := newQlogConnection 0 in
  assign t (withVantagePoint client) ;;
  setEvents t evs.

(** Trace 0 holds one event, whose only field is [undefined]; *)
Definition sparse : Heap := Eval vm_compute in fst (run (holding [[Js.Undefined]])).
Definition sparseTrace : QlogConnection := Eval vm_compute in trace0 sparse.



(** A trace is given a parser and then cloned. *)
Definition cloning : list Op :=
  [OpNew 0; OpAssignVantagePoint 0 client; OpAssignEventFieldNames 0 fieldOrder;
   OpSetEventParser 0 0; OpClone 0].

(** A trace is constructed under group 0 and then given group 1 as its
    parent. *)
Definition reparenting : list Op := [OpNew 0; OpAssignParent 0 1].

(** The events of trace 0 are replaced after its index was built. *)
Definition stale : Heap := Eval vm_compute in fst (setEvents 0 [e2] indexed).

(** Trace 0 has the strict parser and an empty index; the first of its two
    events cannot be resolved. *)
Definition broken : Heap := Eval vm_compute in fst (run (loadedWith 1 [bad; e0])).
Definition brokenTrace : QlogConnection := Eval vm_compute in trace0 broken.
Definition strictParser : ParserObject :=
  {| parser_isVue := true; class := strict; state := fieldOrder;
     currentEvent := None |}.

(** Traces 0 and 1 declare their fields in different orders; neither has a
    parser yet. *)
Definition twoTraces : Heap :=
  Eval vm_compute in
    fst (run (let* t0 := newQlogConnection 0 in
              assign t0 (withEventFieldNames fieldOrder) ;;
              let* t1 := newQlogConnection 0 in
              assign t1 (withEventFieldNames ["category"; "name"; "time"; "data"]))).
Definition firstTrace : QlogConnection := Eval vm_compute in trace0 twoTraces.
Definition secondTrace : QlogConnection :=
  Eval vm_compute in default (constructed 0) (heapConnections twoTraces !! 1).
Definition unbound : ParserObject :=
  {| parser_isVue := false; class := positional; state := [];
     currentEvent := None |}.

(** Trace 0 holds one event and no parser was ever attached to it. *)
Definition unparsed : Heap :=
  Eval vm_compute in
    fst (run (let* t := newQlogConnection 0 in setEvents t [e0])).
Definition unparsedTrace : QlogConnection := Eval vm_compute in trace0 unparsed.

End Scenario.

(** * Properties *)

(** ** The store monad *)

Lemma bind_Return {A B : Type} (m : M A) (k : A -> M B) h h' a :
  m h = (h', Return a) -> bind m k h = k a h'.
Proof. intros E. unfold bind. by rewrite E. Qed.

Lemma getConnection_at h this c :
  heapConnections h !! this = Some c -> getConnection this h = (h, Return c).
Proof. intros E. unfold getConnection. by rewrite E. Qed.

Lemma modifyConnection_at h this c f :
  heapConnections h !! this = Some c ->
  modifyConnection this f h
  = (setHeapConnections (<[this := f c]> (heapConnections h)) h, Return tt).
Proof. intros E. unfold modifyConnection. by rewrite E. Qed.

Lemma getParser_at h p o :
  heapParsers h !! p = Some o -> getParser p h = (h, Return o).
Proof. intros E. unfold getParser. by rewrite E. Qed.

Lemma lookup_snoc {A : Type} (l : list A) (x : A) : (l ++ [x]) !! length l = Some x.
Proof. by apply list_lookup_middle. Qed.

Lemma insert_snoc {A : Type} (l : list A) (x y : A) :
  <[length l := y]> (l ++ [x]) = l ++ [y].
Proof. induction l as [|a l IH]; simpl; [done | by rewrite IH]. Qed.

(** ** The index *)

Lemma tableLookup_empty c t : tableLookup ∅ c t = [].
Proof. unfold tableLookup. by rewrite lookup_empty. Qed.

Lemma tableLookup_bucketEvent table c t evt c' t' :
  tableLookup (bucketEvent table c t evt) c' t'
  = if decide (c = c' ∧ t = t') then tableLookup table c' t' ++ [evt]
    else tableLookup table c' t'.
Proof.
  unfold bucketEvent, tableLookup.
  destruct (table !! c) as [d|] eqn:Ec.
  - rewrite decide_True by eauto. rewrite Ec.
    destruct (d !! t) as [b|] eqn:Et.
    + rewrite decide_True by eauto. rewrite Et.
      destruct (decide (c = c')) as [<-|Hc].
      * rewrite lookup_insert_eq, Ec.
        destruct (decide (t = t')) as [<-|Ht].
        -- rewrite decide_True by done. by rewrite lookup_insert_eq, Et.
        -- rewrite decide_False by tauto. by rewrite lookup_insert_ne.
      * rewrite decide_False by tauto. by rewrite lookup_insert_ne.
    + rewrite decide_False by (intros [? ?]; congruence).
      rewrite lookup_insert_eq.
      destruct (decide (c = c')) as [<-|Hc].
      * rewrite lookup_insert_eq, Ec.
        destruct (decide (t = t')) as [<-|Ht].
        -- rewrite decide_True by done. by rewrite lookup_insert_eq, Et.
        -- rewrite decide_False by tauto.
           by rewrite !lookup_insert_ne by done.
      * rewrite decide_False by tauto. by rewrite lookup_insert_ne.
  - rewrite decide_False by (intros [? ?]; congruence).
    rewrite lookup_insert_eq, lookup_empty.
    rewrite decide_False by (intros [? ?]; congruence).
    rewrite lookup_insert_eq.
    destruct (decide (c = c')) as [<-|Hc].
    + rewrite lookup_insert_eq, Ec.
      destruct (decide (t = t')) as [<-|Ht].
      * rewrite decide_True by done. by rewrite lookup_insert_eq.
      * rewrite decide_False by tauto.
        by rewrite !lookup_insert_ne, lookup_empty by done.
    + rewrite decide_False by tauto.
      by rewrite !lookup_insert_ne by done.
Qed.

Lemma resolved_all f evs :
  Forall (fun evt => is_Some (f evt)) evs -> resolved f evs = evs.
Proof.
  induction 1 as [|evt evs [view Hv] _ IH]; simpl; [done|]. by rewrite Hv, IH.
Qed.

Lemma buildOutcome_all f evs :
  Forall (fun evt => is_Some (f evt)) evs -> buildOutcome f evs = Return tt.
Proof.
  induction 1 as [|evt evs [view Hv] _ IH]; simpl; [done|]. by rewrite Hv.
Qed.

Lemma buildOutcome_Return f evs :
  buildOutcome f evs = Return tt -> Forall (fun evt => is_Some (f evt)) evs.
Proof.
  induction evs as [|evt evs IH]; simpl; [by constructor|].
  destruct (f evt) as [view|] eqn:Hv; [|done].
  intros H. constructor; [by eexists|by apply IH].
Qed.

Lemma buildOutcome_cases f evs :
  buildOutcome f evs = Return tt ∨ buildOutcome f evs = Throw DataError.
Proof.
  induction evs as [|evt evs IH]; simpl; [by left|].
  destruct (f evt); [done|by right].
Qed.

Lemma buildCalls_all p f evs :
  Forall (fun evt => is_Some (f evt)) evs ->
  buildCalls p f evs = flat_map (fun evt => [(p, evt); (p, evt)]) evs.
Proof.
  induction 1 as [|evt evs [view Hv] _ IH]; simpl; [done|]. by rewrite Hv, IH.
Qed.

Lemma buildTable_nothing f evs table :
  resolved f evs = [] -> buildTable f evs table = table.
Proof. destruct evs as [|evt evs]; simpl; [done|]. by destruct (f evt). Qed.

Lemma tableLookup_buildTable o evs : forall table c t,
  tableLookup (buildTable (loadOf o) evs table) c t
  = tableLookup table c t ++ filter (keyed o c t) (resolved (loadOf o) evs).
Proof.
  induction evs as [|evt evs IH]; intros table c t; simpl.
  - by rewrite app_nil_r.
  - destruct (loadOf o evt) as [view|] eqn:Hv; [|by rewrite app_nil_r].
    rewrite IH, tableLookup_bucketEvent, filter_cons.
    destruct (decide (keyed o c t evt)) as [K|K]; unfold keyed in K; rewrite Hv in K.
    + rewrite decide_True by done. by rewrite <- app_assoc.
    + by rewrite decide_False by done.
Qed.

Lemma bucketEvent_non_empty table c t evt : bucketEvent table c t evt ≠ ∅.
Proof.
  intros E.
  assert (H : tableLookup (bucketEvent table c t evt) c t = []).
  { rewrite E. apply tableLookup_empty. }
  rewrite tableLookup_bucketEvent, decide_True in H by done.
  by destruct (tableLookup table c t).
Qed.

Lemma buildTable_non_empty f evs : forall table,
  table ≠ ∅ ∨ resolved f evs ≠ [] -> buildTable f evs table ≠ ∅.
Proof.
  induction evs as [|evt evs IH]; intros table [H|H]; simpl in *; try done.
  - destruct (f evt); [|done]. apply IH. left. apply bucketEvent_non_empty.
  - destruct (f evt); [|done]. apply IH. left. apply bucketEvent_non_empty.
Qed.

(** ** [parseEvent] and the loop of [setupLookupTable] *)

Lemma parseEvent_unattached h this c evt :
  heapConnections h !! this = Some c ->
  eventParser c = None ->
  parseEvent this evt h = (h, Throw TypeError).
Proof.
  intros Hc Hp. unfold parseEvent.
  rewrite (bind_Return _ _ _ _ _ (getConnection_at _ _ _ Hc)).
  by rewrite Hp.
Qed.

Lemma withCurrentEvent_id o : withCurrentEvent (currentEvent o) o = o.
Proof. by destruct o. Qed.

Lemma callLoad_at h p o evt :
  heapParsers h !! p = Some o ->
  callLoad p evt h = (afterLoad p o evt h, completion (loadOf o evt)).
Proof.
  intros Ho. unfold callLoad.
  rewrite (bind_Return _ _ _ _ _ (getParser_at _ _ _ Ho)).
  unfold bind, modifyParser. by rewrite Ho.
Qed.

Lemma parseEvent_attached h this c p o evt :
  heapConnections h !! this = Some c ->
  eventParser c = Some p ->
  heapParsers h !! p = Some o ->
  parseEvent this evt h = (afterLoad p o evt h, completion (loadOf o evt)).
Proof.
  intros Hc Hp Ho. unfold parseEvent.
  rewrite (bind_Return _ _ _ _ _ (getConnection_at _ _ _ Hc)).
  rewrite Hp. by apply callLoad_at.
Qed.

Lemma bind_Throw {A B : Type} (m : M A) (k : A -> M B) h h' e :
  m h = (h', Throw e) -> bind m k h = (h', Throw e).
Proof. intros E. unfold bind. by rewrite E. Qed.

Lemma parse_field {A : Type} this evt h h' view (g : IQlogEvent -> A) :
  parseEvent this evt h = (h', Return view) ->
  bind (parseEvent this evt) (fun v => ret (g v)) h = (h', Return (g view)).
Proof. intros E. by rewrite (bind_Return _ _ _ _ _ E). Qed.

Lemma withLookupTable_id c : withLookupTable (lookupTable c) c = c.
Proof. by destruct c. Qed.

Lemma bucketing_loop this p evs : forall h c o,
  heapConnections h !! this = Some c ->
  eventParser c = Some p ->
  heapParsers h !! p = Some o ->
  forOf evs (bucketing this) h
  = (built this p o c evs h, buildOutcome (loadOf o) evs).
Proof.
  induction evs as [|evt evs IH]; intros h c o Hc Hp Ho.
  - simpl. unfold ret, built. simpl.
    rewrite withLookupTable_id, withCurrentEvent_id, app_nil_r.
    rewrite !list_insert_id by done. by destruct h.
  - pose proof (lookup_lt_Some _ _ _ Hc) as Hlt.
    pose proof (lookup_lt_Some _ _ _ Ho) as Hltp.
    simpl. destruct (loadOf o evt) as [view|] eqn:Hv.
    + set (o1 := withCurrentEvent (Some evt) o).
      assert (Ho1 : heapParsers (afterLoad p o evt h) !! p = Some o1)
        by (simpl; by apply list_lookup_insert_eq).
      assert (Hc1 : heapConnections (afterLoad p o evt h) !! this = Some c) by done.
      assert (Ho2 : heapParsers (afterLoad p o1 evt (afterLoad p o evt h)) !! p = Some o1).
      { simpl. apply list_lookup_insert_eq. by rewrite length_insert. }
      assert (Hc2 : heapConnections (afterLoad p o1 evt (afterLoad p o evt h)) !! this
                    = Some c) by done.
      unfold bucketing at 1.
      erewrite bind_Return; cycle 1.
      { erewrite bind_Return; cycle 1.
        { apply parse_field.
          rewrite (parseEvent_attached _ _ _ _ _ evt Hc Hp Ho), Hv. reflexivity. }
        erewrite bind_Return; cycle 1.
        { apply parse_field.
          rewrite (parseEvent_attached _ _ _ _ _ evt Hc1 Hp Ho1).
          change (loadOf o1 evt) with (loadOf o evt). rewrite Hv. reflexivity. }
        by apply modifyConnection_at. }
      simpl.
      erewrite (IH _ _ o1); cycle 1.
      * simpl. by apply list_lookup_insert_eq.
      * simpl. exact Hp.
      * exact Ho2.
      * unfold built. simpl. change (loadOf o1) with (loadOf o). rewrite Hv.
        rewrite !list_insert_insert_eq, <- !app_assoc. reflexivity.
    + apply bind_Throw. unfold bucketing. apply bind_Throw, bind_Throw.
      rewrite (parseEvent_attached _ _ _ _ _ evt Hc Hp Ho), Hv.
      unfold built. simpl. rewrite Hv. simpl.
      rewrite withLookupTable_id. rewrite (list_insert_id (heapConnections h)) by done.
      by destruct h.
Qed.

Lemma setupLookupTable_built h this c :
  heapConnections h !! this = Some c ->
  size (lookupTable c) ≠ 0 ->
  setupLookupTable this h = (h, Return tt).
Proof.
  intros Hc Hs. unfold setupLookupTable.
  rewrite (bind_Return _ _ _ _ _ (getConnection_at _ _ _ Hc)).
  by rewrite decide_True.
Qed.

Lemma setupLookupTable_empty h this c p o :
  heapConnections h !! this = Some c ->
  size (lookupTable c) = 0 ->
  eventParser c = Some p ->
  heapParsers h !! p = Some o ->
  setupLookupTable this h
  = (built this p o c (events c) h, buildOutcome (loadOf o) (events c)).
Proof.
  intros Hc Hs Hp Ho. unfold setupLookupTable.
  rewrite (bind_Return _ _ _ _ _ (getConnection_at _ _ _ Hc)).
  rewrite decide_False by lia.
  by apply (bucketing_loop this p).
Qed.

Lemma lookup_at h this c cat ty :
  heapConnections h !! this = Some c ->
  lookup this cat ty h = (h, Return (tableLookup (lookupTable c) cat ty)).
Proof.
  intros Hc. unfold lookup, tableLookup.
  rewrite (bind_Return _ _ _ _ _ (getConnection_at _ _ _ Hc)).
  destruct (lookupTable c !! cat) as [d|]; [|done].
  by destruct (d !! ty).
Qed.

Lemma getEvents_at h this c :
  heapConnections h !! this = Some c ->
  getEvents this h = (h, Return (events c)).
Proof.
  intros Hc. unfold getEvents.
  by rewrite (bind_Return _ _ _ _ _ (getConnection_at _ _ _ Hc)).
Qed.

Lemma built_connection h this p o c evs :
  heapConnections h !! this = Some c ->
  heapConnections (built this p o c evs h) !! this
  = Some (withLookupTable (buildTable (loadOf o) evs (lookupTable c)) c).
Proof.
  intros Hc. unfold built. simpl.
  apply list_lookup_insert_eq. by eapply lookup_lt_Some.
Qed.

Lemma built_parser h this p o c evs :
  heapParsers h !! p = Some o ->
  heapParsers (built this p o c evs h) !! p
  = Some (withCurrentEvent (lastLoaded (loadOf o) evs (currentEvent o)) o).
Proof.
  intros Ho. unfold built. simpl.
  apply list_lookup_insert_eq. by eapply lookup_lt_Some.
Qed.

Lemma built_nil h this p o c :
  heapConnections h !! this = Some c ->
  heapParsers h !! p = Some o ->
  built this p o c [] h = h.
Proof.
  intros Hc Ho. unfold built. simpl.
  rewrite withLookupTable_id, withCurrentEvent_id, app_nil_r.
  rewrite !list_insert_id by done. by destruct h.
Qed.

Lemma setupLookupTable_no_events h this c :
  heapConnections h !! this = Some c ->
  events c = [] ->
  setupLookupTable this h = (h, Return tt).
Proof.
  intros Hc Hev. unfold setupLookupTable.
  rewrite (bind_Return _ _ _ _ _ (getConnection_at _ _ _ Hc)).
  case_decide; [done|]. by rewrite Hev.
Qed.

Lemma setupLookupTable_unattached h this c evt evs :
  heapConnections h !! this = Some c ->
  size (lookupTable c) = 0 ->
  eventParser c = None ->
  events c = evt :: evs ->
  setupLookupTable this h = (h, Throw TypeError).
Proof.
  intros Hc Hs Hp Hev. unfold setupLookupTable.
  rewrite (bind_Return _ _ _ _ _ (getConnection_at _ _ _ Hc)).
  rewrite decide_False by lia. rewrite Hev. simpl.
  apply bind_Throw. unfold bucketing.
  apply bind_Throw, bind_Throw. by apply (parseEvent_unattached _ _ c).
Qed.

Lemma getEventParser_at h this c :
  heapConnections h !! this = Some c ->
  getEventParser this h = (h, Return (eventParser c)).
Proof.
  intros Hc. unfold getEventParser.
  by rewrite (bind_Return _ _ _ _ _ (getConnection_at _ _ _ Hc)).
Qed.

Lemma setEvents_at h this c evs :
  heapConnections h !! this = Some c ->
  setEvents this evs h
  = (setHeapConnections (<[this := withEvents evs c]> (heapConnections h)) h, Return tt).
Proof. apply modifyConnection_at. Qed.

Lemma buildOutcome_until f before evt after :
  Forall (fun e => is_Some (f e)) before ->
  f evt = None ->
  buildOutcome f (before ++ evt :: after) = Throw DataError.
Proof.
  intros Hb He. induction Hb as [|e before [view Hv] _ IH]; simpl.
  - by rewrite He.
  - by rewrite Hv.
Qed.

Lemma buildCalls_until p f before evt after :
  Forall (fun e => is_Some (f e)) before ->
  f evt = None ->
  buildCalls p f (before ++ evt :: after)
  = flat_map (fun e => [(p, e); (p, e)]) before ++ [(p, evt)].
Proof.
  intros Hb He. induction Hb as [|e before [view Hv] _ IH]; simpl.
  - by rewrite He.
  - by rewrite Hv, IH.
Qed.

Lemma length_twice {A : Type} (p : A) (evs : list RawEvent) :
  length (flat_map (fun e => [(p, e); (p, e)]) evs) = 2 * length evs.
Proof. induction evs as [|e evs IH]; simpl; lia. Qed.

(** ** Building the index *)

(** The end-to-end scenario: after the build every (category, name) yields
    its events in trace order, and an unknown pair yields nothing. *)
Example scenario_lookups :
  let h := fst (setupLookupTable 0 Scenario.fresh) in
  snd (lookup 0 "transport" "packet_sent" h) = Return [Scenario.e0; Scenario.e3] ∧
  snd (lookup 0 "transport" "packet_received" h) = Return [Scenario.e1] ∧
  snd (lookup 0 "http" "frame_sent" h) = Return [Scenario.e2] ∧
  snd (lookup 0 "quic" "ack" h) = Return [].
Proof. vm_compute. repeat split; reflexivity. Qed.

Example stale_index_misses_e2 :
  snd (lookup 0 "http" "frame_sent" (fst (setupLookupTable 0 Scenario.stale)))
  = Return [].
Proof. vm_compute. reflexivity. Qed.

Example broken_build_misses_e0 :
  snd (setupLookupTable 0 Scenario.broken) = Throw DataError ∧
  snd (lookup 0 "transport" "packet_sent" (fst (setupLookupTable 0 Scenario.broken)))
  = Return [] ∧
  length (loadCalls Scenario.broken) = 0 ∧
  length (loadCalls (fst (setupLookupTable 0 Scenario.broken))) = 1.
Proof. vm_compute. repeat split; reflexivity. Qed.

(** C1, as stated, fails, in two ways.  On the store [Scenario.stale]
    trace 0 has a parser that resolves every event and holds the single
    event [e2], of category "http" and name "frame_sent", but its index was
    built from the events it held before; [setupLookupTable] returns at its
    guard and [e2] is in no bucket.  On the store [Scenario.broken] the
    index of trace 0 is empty and its parser cannot resolve the first of
    its two events; [setupLookupTable] throws there and the second event,
    [e0], which the parser resolves to ("transport", "packet_sent"), is in
    no bucket. *)
Lemma setupLookupTable_indexes_any_trace_counterexample :
  ¬ (forall h this c p o,
       heapConnections h !! this = Some c ->
       eventParser c = Some p ->
       heapParsers h !! p = Some o ->
       Forall (fun evt => is_Some (loadOf o evt)) (events c) ->
       exists h',
         setupLookupTable this h = (h', Return tt) ∧
         forall cat ty,
           lookup this cat ty h' = (h', Return (filter (keyed o cat ty) (events c))))
  ∧
  ¬ (forall h this c p o,
       heapConnections h !! this = Some c ->
       eventParser c = Some p ->
       heapParsers h !! p = Some o ->
       lookupTable c = ∅ ->
       forall evt view,
         evt ∈ events c ->
         loadOf o evt = Some view ->
         exists bucket,
           snd (lookup this (category view) (name view) (fst (setupLookupTable this h)))
           = Return bucket ∧
           evt ∈ bucket).
Proof.
  split.
  - intros claim.
    edestruct (claim Scenario.stale 0 _ 0 _ eq_refl eq_refl eq_refl)
      as (h' & Hsetup & Hlookup).
    { repeat (constructor; [by eexists|]). constructor. }
    specialize (Hlookup "http" "frame_sent").
    pose proof stale_index_misses_e2 as E.
    rewrite Hsetup in E. simpl in E. rewrite Hlookup in E. simpl in E.
    vm_compute in E. discriminate E.
  - intros claim.
    edestruct (claim Scenario.broken 0 Scenario.brokenTrace 1 Scenario.strictParser
                 eq_refl eq_refl eq_refl eq_refl Scenario.e0)
      as (bucket & Hb & Hin).
    { apply list_elem_of_further, list_elem_of_here. }
    { reflexivity. }
    vm_compute in Hb. injection Hb as <-.
    by apply elem_of_nil in Hin.
Qed.

(** C1, amended: for every trace with an attached parser whose [load]
    resolves every event of the trace, and with an index that is not
    stale (it is empty, or every lookup already answers from the current
    events), [setupLookupTable] returns, leaves the events as they are, and
    afterwards the bucket of every (category, name) is exactly the
    subsequence of the events that the parser resolves to that pair, in
    their order in the trace; so every event is in the bucket of its own
    (category, name) and in no other. *)
Theorem setupLookupTable_indexes_events h this c p o :
  heapConnections h !! this = Some c ->
  eventParser c = Some p ->
  heapParsers h !! p = Some o ->
  Forall (fun evt => is_Some (loadOf o evt)) (events c) ->
  lookupTable c = ∅ ∨
  (forall cat ty,
     lookup this cat ty h = (h, Return (filter (keyed o cat ty) (events c)))) ->
  exists h',
    setupLookupTable this h = (h', Return tt) ∧
    (exists o', heapParsers h' !! p = Some o' ∧ forall evt, loadOf o' evt = loadOf o evt) ∧
    getEvents this h' = (h', Return (events c)) ∧
    (forall cat ty,
       lookup this cat ty h' = (h', Return (filter (keyed o cat ty) (events c)))) ∧
    (forall evt, evt ∈ events c ->
       exists view,
         loadOf o evt = Some view ∧
         forall cat ty bucket, lookup this cat ty h' = (h', Return bucket) ->
           evt ∈ bucket <-> category view = cat ∧ name view = ty).
Proof.
  intros Hc Hp Ho Hall Hfresh.
  assert (Hcore : exists h',
    setupLookupTable this h = (h', Return tt) ∧
    (exists o', heapParsers h' !! p = Some o' ∧ forall evt, loadOf o' evt = loadOf o evt) ∧
    getEvents this h' = (h', Return (events c)) ∧
    (forall cat ty,
       lookup this cat ty h' = (h', Return (filter (keyed o cat ty) (events c))))).
  { destruct (decide (size (lookupTable c) = 0)) as [Hs|Hs].
    - exists (built this p o c (events c) h).
      pose proof (built_connection _ _ p o _ (events c) Hc) as Hc'.
      split; [by rewrite (setupLookupTable_empty _ _ _ _ _ Hc Hs Hp Ho),
                (buildOutcome_all _ _ Hall)|].
      split; [eexists; split; [by apply built_parser|done]|].
      split; [by rewrite (getEvents_at _ _ _ Hc')|].
      intros cat ty. rewrite (lookup_at _ _ _ _ _ Hc'). simpl.
      rewrite tableLookup_buildTable, (map_size_empty_inv _ Hs), tableLookup_empty.
      by rewrite (resolved_all _ _ Hall).
    - destruct Hfresh as [Hempty|Hfresh];
        [by rewrite Hempty, map_size_empty in Hs|].
      exists h. split; [by apply (setupLookupTable_built _ _ c)|].
      split; [by exists o|]. split; [by apply getEvents_at|done]. }
  destruct Hcore as (h' & Hsetup & Hparser & Hevents & Hl).
  exists h'. do 4 (split; [done|]).
  intros evt Hin.
  destruct (proj1 (Forall_forall _ _) Hall evt Hin) as [view Hview].
  exists view. split; [done|].
  intros cat ty bucket Hb. rewrite Hl in Hb. injection Hb as <-.
  rewrite list_elem_of_filter. unfold keyed. rewrite Hview. tauto.
Qed.

Lemma setupLookupTable_indexes_events_witness :
  exists h',
    setupLookupTable 0 Scenario.fresh = (h', Return tt) ∧
    (exists o', heapParsers h' !! 0 = Some o'
                ∧ forall evt, loadOf o' evt = loadOf Scenario.parser evt) ∧
    getEvents 0 h' = (h', Return (events Scenario.freshTrace)) ∧
    (forall cat ty,
       lookup 0 cat ty h'
       = (h', Return (filter (keyed Scenario.parser cat ty) (events Scenario.freshTrace)))) ∧
    (forall evt, evt ∈ events Scenario.freshTrace ->
       exists view,
         loadOf Scenario.parser evt = Some view ∧
         forall cat ty bucket, lookup 0 cat ty h' = (h', Return bucket) ->
           evt ∈ bucket <-> category view = cat ∧ name view = ty).
Proof.
  refine (setupLookupTable_indexes_events Scenario.fresh 0 Scenario.freshTrace 0
            Scenario.parser eq_refl eq_refl eq_refl _ (or_introl eq_refl)).
  repeat (constructor; [by eexists|]). constructor.
Defined.

Example single_build_calls_load_twice :
  length (loadCalls Scenario.single) = 0 ∧
  length (loadCalls (fst (setupLookupTable 0 Scenario.single))) = 2.
Proof. vm_compute. split; reflexivity. Qed.

(** C9, as stated, fails.  On the store [Scenario.single] trace 0 holds one
    event and has an empty index, and building the index calls [load]
    twice.  On the store [Scenario.broken] the parser cannot resolve the
    first of the two events of trace 0, and the build stops there, after
    one call. *)
Lemma setupLookupTable_one_load_per_event_counterexample :
  ¬ (forall h this c p o,
       heapConnections h !! this = Some c ->
       lookupTable c = ∅ ->
       eventParser c = Some p ->
       heapParsers h !! p = Some o ->
       Forall (fun evt => is_Some (loadOf o evt)) (events c) ->
       exists h',
         setupLookupTable this h = (h', Return tt) ∧
         length (loadCalls h') = length (loadCalls h) + length (events c))
  ∧
  ¬ (forall h this c p o,
       heapConnections h !! this = Some c ->
       lookupTable c = ∅ ->
       eventParser c = Some p ->
       heapParsers h !! p = Some o ->
       length (loadCalls (fst (setupLookupTable this h)))
       = length (loadCalls h) + 2 * length (events c)).
Proof.
  split.
  - intros claim.
    edestruct (claim Scenario.single 0 _ 0 _ eq_refl eq_refl eq_refl eq_refl)
      as (h' & Hsetup & Hcalls).
    { repeat (constructor; [by eexists|]). constructor. }
    destruct single_build_calls_load_twice as [E0 E2].
    rewrite Hsetup in E2. simpl in E2. rewrite E2, E0 in Hcalls.
    vm_compute in Hcalls. discriminate Hcalls.
  - intros claim.
    pose proof (claim Scenario.broken 0 Scenario.brokenTrace 1 Scenario.strictParser
                  eq_refl eq_refl eq_refl eq_refl) as Hcalls.
    destruct broken_build_misses_e0 as (_ & _ & E0 & E1).
    rewrite E1, E0 in Hcalls. vm_compute in Hcalls. discriminate Hcalls.
Qed.

(** C9, amended: during an index build on a trace with n events, starting
    from an empty index, [setupLookupTable] invokes the attached parser's
    [load] exactly twice per event (once for the category, once for the
    name), in the order of the events, 2n invocations in total, when
    [load] resolves every event; when [load] fails on an event the build
    stops there by throwing, having invoked it twice for each event before
    that one and once for that one. *)
Theorem setupLookupTable_two_loads_per_event h this c p o :
  heapConnections h !! this = Some c ->
  lookupTable c = ∅ ->
  eventParser c = Some p ->
  heapParsers h !! p = Some o ->
  (Forall (fun evt => is_Some (loadOf o evt)) (events c) ->
   exists h',
     setupLookupTable this h = (h', Return tt) ∧
     loadCalls h' = loadCalls h ++ flat_map (fun evt => [(p, evt); (p, evt)]) (events c) ∧
     length (loadCalls h') = length (loadCalls h) + 2 * length (events c)) ∧
  (forall before evt after,
     events c = before ++ evt :: after ->
     Forall (fun e => is_Some (loadOf o e)) before ->
     loadOf o evt = None ->
     exists h',
       setupLookupTable this h = (h', Throw DataError) ∧
       loadCalls h'
       = loadCalls h ++ flat_map (fun e => [(p, e); (p, e)]) before ++ [(p, evt)] ∧
       length (loadCalls h') = length (loadCalls h) + 2 * length before + 1).
Proof.
  intros Hc Hempty Hp Ho.
  assert (Hs : size (lookupTable c) = 0) by (rewrite Hempty; apply map_size_empty).
  rewrite (setupLookupTable_empty _ _ _ _ _ Hc Hs Hp Ho). split.
  - intros Hall. eexists. split; [by rewrite (buildOutcome_all _ _ Hall)|].
    unfold built. simpl. rewrite (buildCalls_all _ _ _ Hall).
    split; [done|]. rewrite length_app, length_twice. lia.
  - intros before evt after Hev Hb He. rewrite Hev. eexists.
    split; [by rewrite (buildOutcome_until _ _ _ _ Hb He)|].
    unfold built. simpl. rewrite (buildCalls_until _ _ _ _ _ Hb He).
    split; [done|]. rewrite !length_app, length_twice. simpl. lia.
Qed.

Lemma setupLookupTable_two_loads_per_event_witness :
  (exists h',
     setupLookupTable 0 Scenario.fresh = (h', Return tt) ∧
     loadCalls h'
     = loadCalls Scenario.fresh
       ++ flat_map (fun evt => [(0, evt); (0, evt)])
            [Scenario.e0; Scenario.e1; Scenario.e2; Scenario.e3] ∧
     length (loadCalls h') = length (loadCalls Scenario.fresh) + 2 * 4) ∧
  (exists h',
     setupLookupTable 0 Scenario.broken = (h', Throw DataError) ∧
     loadCalls h'
     = loadCalls Scenario.broken
       ++ flat_map (fun e => [(1, e); (1, e)]) [] ++ [(1, Scenario.bad)] ∧
     length (loadCalls h') = length (loadCalls Scenario.broken) + 2 * 0 + 1).
Proof.
  split.
  - refine (proj1 (setupLookupTable_two_loads_per_event Scenario.fresh 0
                     Scenario.freshTrace 0 Scenario.parser
                     eq_refl eq_refl eq_refl eq_refl) _).
    repeat (constructor; [by eexists|]). constructor.
  - refine (proj2 (setupLookupTable_two_loads_per_event Scenario.broken 0
                     Scenario.brokenTrace 1 Scenario.strictParser
                     eq_refl eq_refl eq_refl eq_refl)
              [] Scenario.bad [Scenario.e0] eq_refl _ eq_refl).
    constructor.
Defined.

(** C3: on a trace with an attached parser, two calls of
    [setupLookupTable] with no [setEvents] in between leave the index that
    the first call left.  When the first call returns, which it does when
    [load] resolves every event, or leaves an index with an entry, the
    second call changes nothing in the whole store and returns; and a call
    on an index that has at least one category entry changes nothing. *)
Theorem setupLookupTable_idempotent h this c p o :
  heapConnections h !! this = Some c ->
  eventParser c = Some p ->
  heapParsers h !! p = Some o ->
  exists h1 r1 h2 r2 c1 c2,
    setupLookupTable this h = (h1, r1) ∧
    setupLookupTable this h1 = (h2, r2) ∧
    heapConnections h1 !! this = Some c1 ∧
    heapConnections h2 !! this = Some c2 ∧
    lookupTable c2 = lookupTable c1 ∧
    (r1 = Return tt ∨ size (lookupTable c1) ≠ 0 -> h2 = h1 ∧ r2 = Return tt) ∧
    (Forall (fun evt => is_Some (loadOf o evt)) (events c) -> r1 = Return tt) ∧
    (size (lookupTable c) ≠ 0 -> h1 = h ∧ r1 = Return tt).
Proof.
  intros Hc Hp Ho.
  destruct (decide (size (lookupTable c) = 0)) as [Hs|Hs]; cycle 1.
  { exists h, (Return tt), h, (Return tt), c, c.
    rewrite (setupLookupTable_built _ _ _ Hc Hs). by repeat split. }
  set (f := loadOf o).
  set (T := buildTable f (events c) (lookupTable c)).
  set (c1 := withLookupTable T c).
  set (o1 := withCurrentEvent (lastLoaded f (events c) (currentEvent o)) o).
  set (h1 := built this p o c (events c) h).
  assert (E1 : setupLookupTable this h = (h1, buildOutcome f (events c)))
    by (by apply setupLookupTable_empty).
  assert (Hc1 : heapConnections h1 !! this = Some c1) by (by apply built_connection).
  assert (Ho1 : heapParsers h1 !! p = Some o1) by (by apply built_parser).
  clearbody h1.
  destruct (decide (size T = 0)) as [HT|HT]; cycle 1.
  { exists h1, (buildOutcome f (events c)), h1, (Return tt), c1, c1.
    rewrite (setupLookupTable_built _ _ _ Hc1 HT).
    repeat split; try done.
    intros Hall. by apply buildOutcome_all. }
  assert (Hnone : resolved f (events c) = []).
  { destruct (resolved f (events c)) as [|evt evs] eqn:Hr; [done|].
    exfalso.
    apply (buildTable_non_empty f (events c) (lookupTable c)); [right; by rewrite Hr|].
    by apply map_size_empty_inv. }
  assert (HTc : T = lookupTable c) by (by apply buildTable_nothing).
  set (c2 := withLookupTable (buildTable (loadOf o1) (events c1) (lookupTable c1)) c1).
  assert (HT2 : lookupTable c2 = lookupTable c1).
  { unfold c2. simpl. change (loadOf o1) with f. by apply buildTable_nothing. }
  exists h1, (buildOutcome f (events c)), (built this p o1 c1 (events c1) h1),
    (buildOutcome (loadOf o1) (events c1)), c1, c2.
  split; [done|].
  split; [by apply setupLookupTable_empty|].
  split; [done|]. split; [by apply built_connection|]. split; [done|].
  split; [|split; [by apply buildOutcome_all|intros Hn; contradiction]].
  intros [Hr|Hn]; [|contradiction].
  apply buildOutcome_Return in Hr.
  pose proof (resolved_all _ _ Hr) as Hall. rewrite Hnone in Hall.
  change (events c1) with (events c). rewrite <- Hall.
  by rewrite (built_nil _ _ _ _ _ Hc1 Ho1).
Qed.

Lemma setupLookupTable_idempotent_witness :
  exists h1 r1 h2 r2 c1 c2,
    setupLookupTable 0 Scenario.fresh = (h1, r1) ∧
    setupLookupTable 0 h1 = (h2, r2) ∧
    heapConnections h1 !! 0 = Some c1 ∧
    heapConnections h2 !! 0 = Some c2 ∧
    lookupTable c2 = lookupTable c1 ∧
    (r1 = Return tt ∨ size (lookupTable c1) ≠ 0 -> h2 = h1 ∧ r2 = Return tt) ∧
    (Forall (fun evt => is_Some (loadOf Scenario.parser evt)) (events Scenario.freshTrace) ->
     r1 = Return tt) ∧
    (size (lookupTable Scenario.freshTrace) ≠ 0 -> h1 = Scenario.fresh ∧ r1 = Return tt).
Proof.
  exact (setupLookupTable_idempotent Scenario.fresh 0 Scenario.freshTrace 0
           Scenario.parser eq_refl eq_refl eq_refl).
Defined.

(** ** Queries *)

(** C4: [lookup] always returns and leaves the store as it is; it returns
    the bucket when both keys are in the index and an empty sequence
    otherwise, so on an empty index it returns an empty sequence for every
    key, and the index is still empty afterwards. *)
Theorem lookup_total_and_pure h this c cat ty :
  heapConnections h !! this = Some c ->
  (exists bucket, lookup this cat ty h = (h, Return bucket)) ∧
  (forall d bucket,
     lookupTable c !! cat = Some d -> d !! ty = Some bucket ->
     lookup this cat ty h = (h, Return bucket)) ∧
  (lookupTable c !! cat = None ∨
   (exists d, lookupTable c !! cat = Some d ∧ d !! ty = None) ->
   lookup this cat ty h = (h, Return [])) ∧
  (lookupTable c = ∅ -> lookup this cat ty h = (h, Return [])).
Proof.
  intros Hc. rewrite (lookup_at _ _ _ _ _ Hc). unfold tableLookup.
  split; [eauto|]. split; [|split].
  - intros d bucket -> Hb. by rewrite Hb.
  - intros [->|(d & -> & Hb)]; [done|]. by rewrite Hb.
  - intros ->. by rewrite lookup_empty.
Qed.

Lemma lookup_total_and_pure_witness :
  lookup 0 "quic" "ack" Scenario.indexed = (Scenario.indexed, Return []) ∧
  lookup 0 "transport" "packet_sent" Scenario.fresh = (Scenario.fresh, Return []).
Proof.
  split.
  - refine (proj1 (proj2 (proj2
      (lookup_total_and_pure Scenario.indexed 0 Scenario.indexedTrace "quic" "ack"
         eq_refl))) _).
    left. reflexivity.
  - refine (proj2 (proj2 (proj2
      (lookup_total_and_pure Scenario.fresh 0 Scenario.freshTrace "transport"
         "packet_sent" eq_refl))) _).
    reflexivity.
Defined.

(** ** Replacing the events *)

Example stale_index_keeps_e0 :
  snd (lookup 0 "transport" "packet_sent" (fst (setEvents 0 [Scenario.e2] Scenario.indexed)))
  = Return [Scenario.e0].
Proof. vm_compute. reflexivity. Qed.

(** C2, as stated, fails: on the store [Scenario.indexed] the index of
    trace 0 is built and holds [e0] under ("transport", "packet_sent");
    after [setEvents] with the sequence [[e2]] that lookup still returns
    [e0]. *)
Lemma setEvents_clears_index_counterexample :
  ¬ (forall h this c evs,
       heapConnections h !! this = Some c ->
       size (lookupTable c) ≠ 0 ->
       exists h',
         setEvents this evs h = (h', Return tt) ∧
         forall cat ty, lookup this cat ty h' = (h', Return [])).
Proof.
  intros claim.
  edestruct (claim Scenario.indexed 0 _ [Scenario.e2] eq_refl)
    as (h' & Hset & Hlookup).
  { vm_compute. lia. }
  pose proof stale_index_keeps_e0 as E.
  rewrite Hset in E. simpl in E.
  rewrite (Hlookup "transport" "packet_sent") in E. discriminate E.
Qed.

(** C2, amended: for every trace, [setEvents] with any new sequence returns,
    makes that sequence the trace's events and leaves the index as it was:
    immediately afterwards every lookup returns what it returned before, so
    an index that was built is still built. *)
Theorem setEvents_keeps_index h this c evs :
  heapConnections h !! this = Some c ->
  exists h',
    setEvents this evs h = (h', Return tt) ∧
    getEvents this h' = (h', Return evs) ∧
    (exists c', heapConnections h' !! this = Some c' ∧ lookupTable c' = lookupTable c) ∧
    forall cat ty bucket,
      lookup this cat ty h = (h, Return bucket) ->
      lookup this cat ty h' = (h', Return bucket).
Proof.
  intros Hc.
  assert (Hc' : heapConnections
                  (setHeapConnections (<[this := withEvents evs c]> (heapConnections h)) h)
                !! this = Some (withEvents evs c)).
  { simpl. apply list_lookup_insert_eq. by eapply lookup_lt_Some. }
  eexists. split; [by apply modifyConnection_at|]. split; [|split].
  - by rewrite (getEvents_at _ _ _ Hc').
  - by eexists.
  - intros cat ty bucket.
    rewrite (lookup_at _ _ _ _ _ Hc), (lookup_at _ _ _ _ _ Hc'). simpl.
    congruence.
Qed.

Lemma setEvents_keeps_index_witness :
  exists h',
    setEvents 0 [Scenario.e2] Scenario.indexed = (h', Return tt) ∧
    getEvents 0 h' = (h', Return [Scenario.e2]) ∧
    (exists c', heapConnections h' !! 0 = Some c' ∧
                lookupTable c' = lookupTable Scenario.indexedTrace) ∧
    forall cat ty bucket,
      lookup 0 cat ty Scenario.indexed = (Scenario.indexed, Return bucket) ->
      lookup 0 cat ty h' = (h', Return bucket).
Proof.
  exact (setEvents_keeps_index Scenario.indexed 0 Scenario.indexedTrace
           [Scenario.e2] eq_refl).
Defined.

(** ** The JSON round trip *)

Lemma Value_nested_ind (P : Js.Value -> Prop) :
  P Js.Undefined -> P Js.Null -> (forall b, P (Js.Bool b)) ->
  (forall n, P (Js.Number n)) -> (forall z, P (Js.BigInt z)) ->
  (forall s, P (Js.String s)) -> P Js.Function ->
  (forall elems, Forall P elems -> P (Js.Array elems)) ->
  (forall props, Forall (fun kx => P kx.2) props -> P (Js.Object props)) ->
  P Js.Circular ->
  forall v, P v.
Proof.
  intros HU HN HB Hn Hz Hs HF HA HO HC. fix IH 1.
  intros [| |b|n|z|s| |elems|props|];
    [exact HU|exact HN|apply HB|apply Hn|apply Hz|apply Hs|exact HF| | |exact HC].
  - apply HA. induction elems as [|x xs IHxs]; constructor; [apply IH|done].
  - apply HO. induction props as [|[k x] ps IHps]; constructor; [apply IH|done].
Qed.

Lemma serialize_Array xs :
  Js.serialize (Js.Array xs)
  = match Js.elements xs with
    | Some ys => Js.Text (Js.Array ys)
    | None => Js.Rejected
    end.
Proof. reflexivity. Qed.

Lemma serialize_Object ps :
  Js.serialize (Js.Object ps)
  = match Js.members ps with
    | Some qs => Js.Text (Js.Object qs)
    | None => Js.Rejected
    end.
Proof. reflexivity. Qed.

Lemma serialize_representable :
  forall v, Js.representable v = true -> Js.serialize v = Js.Text v.
Proof.
  induction v as [| |b|n|z|s| |elems IH|props IH|] using Value_nested_ind;
    intros H; try done.
  - by destruct n.
  - rewrite serialize_Array. simpl in H.
    assert (E : Js.elements elems = Some elems); [|by rewrite E].
    induction IH as [|x xs Hx _ IHxs]; simpl in *; [done|].
    apply andb_prop in H as [H1 H2]. by rewrite (Hx H1), (IHxs H2).
  - rewrite serialize_Object. simpl in H.
    assert (E : Js.members props = Some props); [|by rewrite E].
    induction IH as [|[k x] ps Hx _ IHps]; simpl in *; [done|].
    apply andb_prop in H as [H1 H2]. by rewrite (Hx H1), (IHps H2).
Qed.

Lemma serialize_output :
  forall v v', Js.serialize v = Js.Text v' -> Js.representable v' = true.
Proof.
  induction v as [| |b|n|z|s| |elems IH|props IH|] using Value_nested_ind;
    intros v' H; try discriminate H; try (by injection H as <-).
  - injection H as <-. by destruct n.
  - rewrite serialize_Array in H.
    destruct (Js.elements elems) as [ys|] eqn:E; [|done]. injection H as <-.
    simpl. revert ys E.
    induction IH as [|x xs Hx _ IHxs]; intros ys E; simpl in E.
    + by injection E as <-.
    + destruct (Js.serialize x) as [y| |] eqn:Ex; [| |done];
        destruct (Js.elements xs) as [ys'|]; try done;
        injection E as <-; simpl; rewrite (IHxs ys' eq_refl).
      * rewrite andb_true_r. by apply Hx.
      * done.
  - rewrite serialize_Object in H.
    destruct (Js.members props) as [qs|] eqn:E; [|done]. injection H as <-.
    simpl. revert qs E.
    induction IH as [|[k x] ps Hx _ IHps]; intros qs E; simpl in E.
    + by injection E as <-.
    + destruct (Js.serialize x) as [y| |] eqn:Ex; [| |done].
      * destruct (Js.members ps) as [qs'|]; [|done].
        injection E as <-. simpl in *. by rewrite (Hx y Ex), (IHps qs' eq_refl).
      * by apply IHps.
Qed.

Lemma serialize_fixed v v' :
  Js.serialize v = Js.Text v' -> Js.serialize v' = Js.Text v'.
Proof. intros H. by apply serialize_representable, (serialize_output v). Qed.

Lemma elements_element xs ys :
  Js.elements xs = Some ys -> ys = map Js.element xs.
Proof.
  revert ys. induction xs as [|x xs IH]; intros ys E; simpl in E.
  - by injection E as <-.
  - unfold Js.element at 1. simpl.
    destruct (Js.serialize x) as [y| |]; [| |done];
      destruct (Js.elements xs) as [ys'|]; try done;
      injection E as <-; by rewrite (IH ys' eq_refl).
Qed.

Lemma elements_representable xs :
  Forall (fun v => Js.representable v = true) xs -> Js.elements xs = Some xs.
Proof.
  induction 1 as [|x xs Hx _ IH]; simpl; [done|].
  by rewrite (serialize_representable _ Hx), IH.
Qed.

Lemma elements_output xs ys :
  Js.elements xs = Some ys -> Forall (fun v => Js.representable v = true) ys.
Proof.
  revert ys. induction xs as [|x xs IH]; intros ys E; simpl in E.
  - injection E as <-. constructor.
  - destruct (Js.serialize x) as [y| |] eqn:Ex; [| |done];
      destruct (Js.elements xs) as [ys'|]; try done;
      injection E as <-; constructor; try by apply IH.
    + by apply (serialize_output x).
    + done.
Qed.

Lemma jsonEvents_element evs evs' :
  jsonEvents evs = Some evs' -> evs' = map (map Js.element) evs.
Proof.
  revert evs'. induction evs as [|evt evs IH]; intros evs' E; simpl in E.
  - by injection E as <-.
  - destruct (Js.elements evt) as [evt'|] eqn:Ee; [|done].
    destruct (jsonEvents evs) as [rest|]; [|done].
    injection E as <-. simpl.
    by rewrite (elements_element _ _ Ee), (IH rest eq_refl).
Qed.

Lemma jsonEvents_representable evs :
  Forall (Forall (fun v => Js.representable v = true)) evs -> jsonEvents evs = Some evs.
Proof.
  induction 1 as [|evt evs Hevt _ IH]; simpl; [done|].
  by rewrite (elements_representable _ Hevt), IH.
Qed.

Lemma jsonEvents_output evs evs' :
  jsonEvents evs = Some evs' ->
  Forall (Forall (fun v => Js.representable v = true)) evs'.
Proof.
  revert evs'. induction evs as [|evt evs IH]; intros evs' E; simpl in E.
  - injection E as <-. constructor.
  - destruct (Js.elements evt) as [evt'|] eqn:Ee; [|done].
    destruct (jsonEvents evs) as [rest|]; [|done].
    injection E as <-. constructor; [by apply (elements_output evt)|by apply IH].
Qed.

Lemma jsonEvents_fixed evs evs' :
  jsonEvents evs = Some evs' -> jsonEvents evs' = Some evs'.
Proof. intros E. by apply jsonEvents_representable, (jsonEvents_output evs). Qed.

(** The round trip of [this.events] is the round trip of the array value. *)
Lemma jsonEvents_serialize evs :
  Js.serialize (Js.Array (map Js.Array evs))
  = match jsonEvents evs with
    | Some evs' => Js.Text (Js.Array (map Js.Array evs'))
    | None => Js.Rejected
    end.
Proof.
  rewrite serialize_Array.
  assert (E : Js.elements (map Js.Array evs) = map Js.Array <$> jsonEvents evs);
    [|rewrite E; by destruct (jsonEvents evs)].
  induction evs as [|evt evs IH]; [done|].
  change (Js.elements (map Js.Array (evt :: evs)))
    with (match Js.serialize (Js.Array evt) with
          | Js.Text y => cons y <$> Js.elements (map Js.Array evs)
          | Js.Omitted => cons Js.Null <$> Js.elements (map Js.Array evs)
          | Js.Rejected => None
          end).
  rewrite serialize_Array, IH.
  change (jsonEvents (evt :: evs))
    with (match Js.elements evt with
          | Some evt' => cons evt' <$> jsonEvents evs
          | None => None
          end).
  destruct (Js.elements evt); [|done]. by destruct (jsonEvents evs).
Qed.

(** ** Construction and [clone] *)

Lemma bind_ret {A B : Type} (a : A) (k : A -> M B) h : bind (ret a) k h = k a h.
Proof. reflexivity. Qed.

Lemma bind_throw {A B : Type} (e : JsError) (k : A -> M B) h :
  bind (throw e) k h = (h, Throw e).
Proof. reflexivity. Qed.

Lemma modifyConnection_registered h g grp c f :
  modifyConnection (length (heapConnections h)) f (registered h g grp c)
  = (registered h g grp (f c), Return tt).
Proof.
  unfold modifyConnection, registered. simpl.
  by rewrite lookup_snoc, insert_snoc.
Qed.

Lemma newQlogConnection_at h g grp :
  heapGroups h !! g = Some grp ->
  newQlogConnection g h
  = (registered h g grp (constructed g), Return (length (heapConnections h))).
Proof.
  intros Hg. unfold newQlogConnection, allocConnection, modifyGroup, modifyConnection.
  unfold bind, ret. simpl. rewrite Hg. simpl.
  by rewrite lookup_snoc, insert_snoc.
Qed.

Ltac clone_step :=
  first
    [ rewrite bind_ret
    | rewrite bind_throw
    | erewrite bind_Return by apply modifyConnection_registered ].

Lemma registered_last h g grp c :
  heapConnections (registered h g grp c) !! length (heapConnections h) = Some c.
Proof. simpl. apply lookup_snoc. Qed.

Lemma registered_old h g grp c this x :
  heapConnections h !! this = Some x ->
  heapConnections (registered h g grp c) !! this = Some x.
Proof. intros H. simpl. by apply lookup_app_l_Some. Qed.

(** A [clone()] that returns. *)
Lemma clone_returns h this c grp cf conf vp evs :
  heapConnections h !! this = Some c ->
  heapGroups h !! parent c = Some grp ->
  Js.serialize (commonFields c) = Js.Text cf ->
  Js.serialize (configuration c) = Js.Text conf ->
  Js.serialize (vantagePoint c) = Js.Text vp ->
  jsonEvents (events c) = Some evs ->
  clone this h
  = (registered h (parent c) grp (cloned c cf conf vp evs),
     Return (length (heapConnections h))).
Proof.
  intros Hc Hg Hcf Hconf Hvp Hevs. unfold clone.
  rewrite (bind_Return _ _ _ _ _ (getConnection_at _ _ _ Hc)).
  rewrite (bind_Return _ _ _ _ _ (newQlogConnection_at _ _ _ Hg)).
  unfold jsonRoundTrip, jsonRoundTripEvents. rewrite Hcf, Hconf, Hvp, Hevs.
  repeat clone_step. reflexivity.
Qed.

Ltac clone_cases c :=
  destruct (Js.serialize (commonFields c)) as [cf| |];
    [destruct (Js.serialize (configuration c)) as [conf| |];
      [destruct (Js.serialize (vantagePoint c)) as [vp| |];
        [destruct (jsonEvents (events c)) as [evs|]|..]|..]|..];
  repeat clone_step.

(** What [clone()] does to the store whether it returns or throws: it
    registers a trace, which it may not have completed. *)
Lemma clone_registers h this c grp :
  heapConnections h !! this = Some c ->
  heapGroups h !! parent c = Some grp ->
  exists c',
    fst (clone this h) = registered h (parent c) grp c' ∧
    lookupTable c' = ∅ ∧
    (snd (clone this h) = Return (length (heapConnections h)) ∨
     snd (clone this h) = Throw SyntaxError ∨
     snd (clone this h) = Throw TypeError) ∧
    events_isVue c' = true ∧
    lookupTable_isVue c' = true ∧
    parent c' = parent c ∧
    (eventParser c' = None ∨ eventParser c' = eventParser c).
Proof.
  intros Hc Hg. unfold clone.
  rewrite (bind_Return _ _ _ _ _ (getConnection_at _ _ _ Hc)).
  rewrite (bind_Return _ _ _ _ _ (newQlogConnection_at _ _ _ Hg)).
  unfold jsonRoundTrip, jsonRoundTripEvents.
  clone_cases c; eexists; (split; [reflexivity|]); simpl; auto 10.
Qed.

(** [clone()] returns exactly when everything it copies can be written as
    JSON. *)
Lemma clone_returns_clonable h this c grp :
  heapConnections h !! this = Some c ->
  heapGroups h !! parent c = Some grp ->
  (exists h' out, clone this h = (h', Return out)) <-> clonable c.
Proof.
  intros Hc Hg. split.
  - intros (h' & out & Hclone). revert Hclone. unfold clone, clonable.
    rewrite (bind_Return _ _ _ _ _ (getConnection_at _ _ _ Hc)).
    rewrite (bind_Return _ _ _ _ _ (newQlogConnection_at _ _ _ Hg)).
    unfold jsonRoundTrip, jsonRoundTripEvents.
    clone_cases c; intros E; try discriminate E. by eexists _, _, _, _.
  - intros (cf & conf & vp & evs & Hcf & Hconf & Hvp & Hevs).
    do 2 eexists. by apply (clone_returns _ _ c grp cf conf vp evs).
Qed.





(** C6: whenever [clone()] returns, which it does when everything it
    copies can be written as JSON, the index of the returned trace is empty
    and a lookup on it returns an empty sequence for every (category,
    type), whatever the index of the original holds. *)
Theorem clone_index_empty h this c grp :
  heapConnections h !! this = Some c ->
  heapGroups h !! parent c = Some grp ->
  ((exists cf conf vp evs,
      Js.serialize (commonFields c) = Js.Text cf ∧
      Js.serialize (configuration c) = Js.Text conf ∧
      Js.serialize (vantagePoint c) = Js.Text vp ∧
      jsonEvents (events c) = Some evs) ->
   exists h' out, clone this h = (h', Return out)) ∧
  (forall h' out,
     clone this h = (h', Return out) ->
     (exists c', heapConnections h' !! out = Some c' ∧ lookupTable c' = ∅) ∧
     (forall cat ty, lookup out cat ty h' = (h', Return [])) ∧
     (exists c0, heapConnections h' !! this = Some c0 ∧ lookupTable c0 = lookupTable c)).
Proof.
  intros Hc Hg. split.
  - intros Hclonable. by apply (clone_returns_clonable _ _ c grp Hc Hg).
  - intros h' out Hclone.
    destruct (clone_registers _ _ _ _ Hc Hg) as (c' & Hfst & Hempty & Hsnd & _).
    rewrite Hclone in Hfst, Hsnd. simpl in Hfst, Hsnd.
    destruct Hsnd as [Hsnd|[Hsnd|Hsnd]]; try discriminate Hsnd.
    injection Hsnd as ->. subst h'.
    pose proof (registered_last h (parent c) grp c') as Hout.
    split; [eauto|]. split; [|eexists; split; [by apply registered_old|done]].
    intros cat ty. rewrite (lookup_at _ _ _ _ _ Hout), Hempty.
    by rewrite tableLookup_empty.
Qed.

Lemma clone_index_empty_witness :
  exists h' out,
    clone 0 Scenario.indexed = (h', Return out) ∧
    (forall cat ty, lookup out cat ty h' = (h', Return [])) ∧
    lookup 0 "transport" "packet_sent" Scenario.indexed
    = (Scenario.indexed, Return [Scenario.e0]).
Proof.
  destruct (clone_index_empty Scenario.indexed 0 Scenario.indexedTrace
              Scenario.group eq_refl eq_refl) as [Hreturns Hempty].
  destruct Hreturns as (h' & out & Hclone).
  { eexists _, _, _, _. repeat split; reflexivity. }
  exists h', out. split; [exact Hclone|]. split; [|reflexivity].
  exact (proj1 (proj2 (Hempty h' out Hclone))).
Defined.

(** C10: [clone()] registers the trace it creates with the parent group of
    the original, whether it then returns or throws: the new trace is a
    reference that was not in the store before, it is what [clone()]
    returns when it returns, the connection list of the parent group is the
    former list followed by the new trace, and the rest of that group and
    every other group are unchanged. *)
Theorem clone_registers_with_parent h this c grp :
  heapConnections h !! this = Some c ->
  heapGroups h !! parent c = Some grp ->
  exists out,
    heapConnections h !! out = None ∧
    is_Some (heapConnections (fst (clone this h)) !! out) ∧
    (forall r, snd (clone this h) = Return r -> r = out) ∧
    (exists grp',
       heapGroups (fst (clone this h)) !! parent c = Some grp' ∧
       connections grp' = connections grp ++ [out] ∧
       length (connections grp') = S (length (connections grp)) ∧
       groupInfo grp' = groupInfo grp) ∧
    (forall g, g ≠ parent c ->
       heapGroups (fst (clone this h)) !! g = heapGroups h !! g).
Proof.
  intros Hc Hg.
  destruct (clone_registers _ _ _ _ Hc Hg) as (c' & -> & _ & Hsnd & _).
  exists (length (heapConnections h)).
  split; [by apply lookup_ge_None|].
  split; [by rewrite registered_last|]. split; [|split].
  - intros r Hr. destruct Hsnd as [Hsnd|[Hsnd|Hsnd]]; congruence.
  - exists (addConnection grp (length (heapConnections h))).
    split; [|split; [done|split; [|done]]].
    + simpl. apply list_lookup_insert_eq. by eapply lookup_lt_Some.
    + simpl. rewrite length_app. simpl. lia.
  - intros g Hne. simpl. by rewrite list_lookup_insert_ne.
Qed.

Lemma clone_registers_with_parent_witness :
  exists out,
    heapConnections Scenario.blank !! out = None ∧
    is_Some (heapConnections (fst (clone 0 Scenario.blank)) !! out) ∧
    (forall r, snd (clone 0 Scenario.blank) = Return r -> r = out) ∧
    (exists grp',
       heapGroups (fst (clone 0 Scenario.blank)) !! 0 = Some grp' ∧
       connections grp' = [0] ++ [out] ∧
       length (connections grp') = 2 ∧
       groupInfo grp' = Js.Object []) ∧
    (forall g, g ≠ 0 ->
       heapGroups (fst (clone 0 Scenario.blank)) !! g = heapGroups Scenario.blank !! g).
Proof.
  exact (clone_registers_with_parent Scenario.blank 0 Scenario.constructedTrace
           Scenario.group eq_refl eq_refl).
Defined.

(** ** Attaching a parser and [parseEvent] *)

Lemma setEventParser_at h this c p o :
  heapConnections h !! this = Some c ->
  heapParsers h !! p = Some o ->
  setEventParser this p h
  = (setHeapParsers (<[p := bound o (withEventParser (Some p) c)]> (heapParsers h))
       (setHeapConnections
          (<[this := withEventParser (Some p) c]> (heapConnections h)) h),
     Return tt).
Proof.
  intros Hc Ho.
  pose proof (lookup_lt_Some _ _ _ Hc) as Hlt.
  pose proof (lookup_lt_Some _ _ _ Ho) as Hltp.
  unfold setEventParser, modifyParser, modifyConnection, getConnection, bind.
  simpl. rewrite Ho. simpl. rewrite Hc. simpl.
  rewrite list_lookup_insert_eq by done. simpl.
  rewrite list_lookup_insert_eq by done. simpl.
  by rewrite list_insert_insert_eq.
Qed.

Example cloning_clone_parses :
  length (heapConnections (runOps Scenario.cloning Scenario.start)) = 2 ∧
  snd (parseEvent 1 Scenario.e0 (runOps Scenario.cloning Scenario.start))
  = Return {| time := Scenario.num 0; category := "transport";
              name := "packet_sent"; data := Js.Object [] |}.
Proof. vm_compute. split; reflexivity. Qed.

(** C8, as stated, fails: in the calls [Scenario.cloning] trace 0 is given
    a parser and is then cloned; [setEventParser] is never called on the
    clone, trace 1, and [parseEvent] on it returns the parsed view. *)
Lemma parseEvent_without_setEventParser_counterexample :
  ¬ (forall h0 ops this evt,
       heapConnections h0 = [] ->
       this < length (heapConnections (runOps ops h0)) ->
       (forall p, OpSetEventParser this p ∉ ops) ->
       forall v, snd (parseEvent this evt (runOps ops h0)) ≠ Return v).
Proof.
  intros claim.
  destruct cloning_clone_parses as [Hlen Hparse].
  refine (claim Scenario.start Scenario.cloning 1 Scenario.e0 eq_refl _ _ _ Hparse).
  - rewrite Hlen. lia.
  - intros p Hin. unfold Scenario.cloning in Hin.
    repeat (apply elem_of_cons in Hin as [Hin|Hin]; [discriminate Hin|]).
    by apply elem_of_nil in Hin.
Qed.

(** C8, amended: for every trace whose [eventParser] is unset, as it is on
    a newly constructed trace, [parseEvent] on any raw event throws a
    TypeError and changes nothing; for every trace with an attached parser,
    as it is after [setEventParser], [parseEvent] completes exactly as that
    parser's [load] on the given raw event does: it returns the view that
    [load] returns, or throws what [load] throws. *)
Theorem parseEvent_delegates h this c evt :
  heapConnections h !! this = Some c ->
  (eventParser c = None -> parseEvent this evt h = (h, Throw TypeError)) ∧
  (forall p o,
     eventParser c = Some p -> heapParsers h !! p = Some o ->
     parseEvent this evt h
     = (setLoadCalls (loadCalls h ++ [(p, evt)])
          (setHeapParsers (<[p := withCurrentEvent (Some evt) o]> (heapParsers h)) h),
        match load (class o) (state o) evt with
        | Some view => Return view
        | None => Throw DataError
        end)) ∧
  (forall g grp,
     heapGroups h !! g = Some grp ->
     exists h' t,
       newQlogConnection g h = (h', Return t) ∧
       parseEvent t evt h' = (h', Throw TypeError)) ∧
  (forall p o,
     heapParsers h !! p = Some o ->
     exists h' o',
       setEventParser this p h = (h', Return tt) ∧
       heapParsers h' !! p = Some o' ∧
       snd (parseEvent this evt h')
       = match load (class o') (state o') evt with
         | Some view => Return view
         | None => Throw DataError
         end).
Proof.
  intros Hc. split; [|split; [|split]].
  - intros Hp. by apply (parseEvent_unattached _ _ c).
  - intros p o Hp Ho. by apply (parseEvent_attached _ _ c).
  - intros g grp Hg. do 2 eexists. split; [by apply newQlogConnection_at|].
    eapply parseEvent_unattached; [apply registered_last|done].
  - intros p o Ho.
    pose proof (lookup_lt_Some _ _ _ Hc) as Hlt.
    pose proof (lookup_lt_Some _ _ _ Ho) as Hltp.
    do 2 eexists. split; [by apply setEventParser_at|].
    split; [simpl; by apply list_lookup_insert_eq|].
    erewrite parseEvent_attached; [reflexivity| | |].
    + simpl. by apply list_lookup_insert_eq.
    + reflexivity.
    + simpl. by apply list_lookup_insert_eq.
Qed.

Lemma parseEvent_delegates_witness :
  parseEvent 0 Scenario.e0 Scenario.blank = (Scenario.blank, Throw TypeError) ∧
  parseEvent 0 Scenario.e0 Scenario.indexed
  = (setLoadCalls (loadCalls Scenario.indexed ++ [(0, Scenario.e0)])
       (setHeapParsers
          (<[0 := withCurrentEvent (Some Scenario.e0) Scenario.parserAfterBuild]>
             (heapParsers Scenario.indexed)) Scenario.indexed),
     match load Scenario.positional Scenario.fieldOrder Scenario.e0 with
     | Some view => Return view
     | None => Throw DataError
     end).
Proof.
  split.
  - exact (proj1 (parseEvent_delegates Scenario.blank 0 Scenario.constructedTrace
                    Scenario.e0 eq_refl) eq_refl).
  - exact (proj1 (proj2 (parseEvent_delegates Scenario.indexed 0 Scenario.indexedTrace
                           Scenario.e0 eq_refl))
             0 Scenario.parserAfterBuild eq_refl eq_refl).
Defined.

(** ** The index once built *)

Section IndexKept.
Variable this : loc.
Variable T : gmap string (gmap string (list RawEvent)).

Lemma keeps_ret {A : Type} (a : A) : keeps this T (ret a).
Proof. by intros h I. Qed.

Lemma keeps_throw {A : Type} (e : JsError) : keeps this T (@throw A e).
Proof. by intros h I. Qed.

Lemma keeps_bind {A B : Type} (m : M A) (k : A -> M B) :
  keeps this T m -> (forall a, keeps this T (k a)) -> keeps this T (bind m k).
Proof.
  intros Hm Hk h I. specialize (Hm h I). unfold bind.
  destruct (m h) as [h' [a| |]]; simpl in *; [by apply Hk|done..].
Qed.

Lemma keeps_forOf {A : Type} (xs : list A) (body : A -> M unit) :
  (forall x, keeps this T (body x)) -> keeps this T (forOf xs body).
Proof.
  intros Hbody. induction xs as [|x xs IH]; simpl.
  - apply keeps_ret.
  - apply keeps_bind; [apply Hbody|by intros _].
Qed.

Lemma keeps_getConnection x : keeps this T (getConnection x).
Proof. intros h I. unfold getConnection. by destruct (heapConnections h !! x). Qed.

Lemma keeps_getParser p : keeps this T (getParser p).
Proof. intros h I. unfold getParser. by destruct (heapParsers h !! p). Qed.

Lemma keeps_modifyParser p f : keeps this T (modifyParser p f).
Proof. intros h I. unfold modifyParser. by destruct (heapParsers h !! p). Qed.

Lemma keeps_modifyGroup g f : keeps this T (modifyGroup g f).
Proof. intros h I. unfold modifyGroup. by destruct (heapGroups h !! g). Qed.

Lemma keeps_modifyConnection_other x f :
  x ≠ this -> keeps this T (modifyConnection x f).
Proof.
  intros Hne h (c & Hc & HT). unfold modifyConnection.
  destruct (heapConnections h !! x); simpl; [|by exists c].
  exists c. simpl. by rewrite list_lookup_insert_ne.
Qed.

Lemma keeps_modifyConnection_field x f :
  (forall c, lookupTable (f c) = lookupTable c) ->
  keeps this T (modifyConnection x f).
Proof.
  intros Hf h (c & Hc & HT).
  destruct (decide (x = this)) as [->|Hne];
    [|by apply keeps_modifyConnection_other; [|exists c]].
  unfold modifyConnection. rewrite Hc. simpl.
  exists (f c). split; [|by rewrite Hf].
  apply list_lookup_insert_eq. by eapply lookup_lt_Some.
Qed.

Lemma keeps_callLoad p evt : keeps this T (callLoad p evt).
Proof.
  unfold callLoad. apply keeps_bind; [apply keeps_getParser|].
  intros o. apply keeps_bind; [apply keeps_modifyParser|].
  by intros _ h I.
Qed.

Lemma keeps_parseEvent x evt : keeps this T (parseEvent x evt).
Proof.
  unfold parseEvent. apply keeps_bind; [apply keeps_getConnection|].
  intros self. destruct (eventParser self); [apply keeps_callLoad|apply keeps_throw].
Qed.

Lemma keeps_jsonRoundTrip v : keeps this T (jsonRoundTrip v).
Proof.
  unfold jsonRoundTrip.
  destruct (Js.serialize v); [apply keeps_ret|apply keeps_throw..].
Qed.

Lemma keeps_jsonRoundTripEvents evs : keeps this T (jsonRoundTripEvents evs).
Proof.
  unfold jsonRoundTripEvents.
  destruct (jsonEvents evs); [apply keeps_ret|apply keeps_throw].
Qed.

Lemma keeps_newQlogConnection g : keeps this T (newQlogConnection g).
Proof.
  intros h (c & Hc & HT).
  destruct (heapGroups h !! g) as [grp|] eqn:Hg.
  - rewrite (newQlogConnection_at _ _ _ Hg). exists c. split; [|done].
    by apply registered_old.
  - unfold newQlogConnection, allocConnection, modifyGroup, bind. simpl.
    rewrite Hg. simpl. exists c. split; [|done]. by apply lookup_app_l_Some.
Qed.

Ltac keeps_step :=
  first
    [ apply keeps_ret
    | apply keeps_throw
    | apply keeps_getConnection
    | apply keeps_jsonRoundTrip
    | apply keeps_jsonRoundTripEvents
    | apply keeps_newQlogConnection
    | apply keeps_parseEvent
    | apply keeps_modifyParser
    | apply keeps_modifyConnection_field; intros ?; reflexivity
    | apply keeps_bind; [|intros ?] ].

Lemma keeps_clone x : keeps this T (clone x).
Proof. unfold clone. repeat keeps_step. Qed.

Lemma keeps_setEventParser x p : keeps this T (setEventParser x p).
Proof. unfold setEventParser. repeat keeps_step. Qed.

Lemma keeps_setEvents x evs : keeps this T (setEvents x evs).
Proof. unfold setEvents. repeat keeps_step. Qed.

Lemma keeps_getEvents x : keeps this T (getEvents x).
Proof. unfold getEvents. repeat keeps_step. Qed.

Lemma keeps_getEventParser x : keeps this T (getEventParser x).
Proof. unfold getEventParser. repeat keeps_step. Qed.

Lemma keeps_lookup x cat ty : keeps this T (lookup x cat ty).
Proof.
  unfold lookup. apply keeps_bind; [apply keeps_getConnection|].
  intros self. destruct (lookupTable self !! cat) as [d|]; [|apply keeps_ret].
  destruct (d !! ty); apply keeps_ret.
Qed.

Hypothesis T_built : size T ≠ 0.

(** On the trace itself the guard of [setupLookupTable] returns; on
    another trace the loop writes to that trace only. *)
Lemma keeps_setupLookupTable x : keeps this T (setupLookupTable x).
Proof.
  destruct (decide (x = this)) as [->|Hne].
  - intros h (c & Hc & HT).
    rewrite (setupLookupTable_built _ _ _ Hc) by (by rewrite HT).
    by exists c.
  - unfold setupLookupTable. apply keeps_bind; [apply keeps_getConnection|].
    intros self. case_decide; [apply keeps_ret|].
    apply keeps_forOf. intros evt. unfold bucketing.
    repeat keeps_step. by apply keeps_modifyConnection_other.
Qed.

Lemma keeps_perform op : keeps this T (perform op).
Proof.
  destruct op; simpl;
    first
      [ apply keeps_setupLookupTable
      | apply keeps_setEventParser
      | apply keeps_setEvents
      | apply keeps_modifyConnection_field; intros ?; reflexivity
      | apply keeps_bind; [|intros ?; apply keeps_ret] ];
    first
      [ apply keeps_newQlogConnection | apply keeps_clone
      | apply keeps_getEventParser | apply keeps_parseEvent
      | apply keeps_getEvents | apply keeps_lookup ].
Qed.

Lemma keeps_runOps ops : forall h, indexIs this T h -> indexIs this T (runOps ops h).
Proof.
  induction ops as [|op ops IH]; intros h I; simpl; [done|].
  apply IH. by apply keeps_perform.
Qed.
End IndexKept.

(** C7: once the index of a trace has at least one entry, no sequence of
    calls on that trace or on any other object of the store, whether they
    return or throw, changes it: after the calls the trace is still in the
    store, its index is the one it had and is not empty. *)
Theorem built_index_is_terminal h this c ops :
  heapConnections h !! this = Some c ->
  size (lookupTable c) ≠ 0 ->
  exists c',
    heapConnections (runOps ops h) !! this = Some c' ∧
    lookupTable c' = lookupTable c ∧
    size (lookupTable c') ≠ 0.
Proof.
  intros Hc Hbuilt.
  destruct (keeps_runOps this (lookupTable c) Hbuilt ops h) as (c' & Hc' & HT).
  - by exists c.
  - exists c'. by rewrite HT.
Qed.

Lemma built_index_is_terminal_witness :
  exists c',
    heapConnections
      (runOps [OpSetEvents 0 []; OpSetEventParser 0 0; OpParseEvent 0 Scenario.e1;
               OpSetupLookupTable 0; OpLookup 0 "http" "frame_sent"; OpClone 0]
         Scenario.indexed) !! 0 = Some c' ∧
    lookupTable c' = lookupTable Scenario.indexedTrace ∧
    size (lookupTable c') ≠ 0.
Proof.
  refine (built_index_is_terminal Scenario.indexed 0 Scenario.indexedTrace _ eq_refl _).
  vm_compute. lia.
Defined.

(** * Further properties of the class *)

(** ** [setupLookupTable] in every case *)

Lemma lastLoaded_cases f evs : forall current,
  lastLoaded f evs current = current
  ∨ exists evt, evt ∈ evs ∧ lastLoaded f evs current = Some evt.
Proof.
  induction evs as [|evt evs IH]; intros current; simpl; [by left|].
  right. destruct (f evt).
  - destruct (IH (Some evt)) as [E|(evt' & Hin & E)].
    + exists evt. split; [apply list_elem_of_here|done].
    + exists evt'. split; [by apply list_elem_of_further|done].
  - exists evt. split; [apply list_elem_of_here|done].
Qed.

(** What [setupLookupTable] does, case by case. *)
Lemma setupLookupTable_cases h this c :
  heapConnections h !! this = Some c ->
  (forall p, eventParser c = Some p -> is_Some (heapParsers h !! p)) ->
  setupLookupTable this h = (h, Return tt)
  ∨ setupLookupTable this h = (h, Throw TypeError)
  ∨ exists p o,
      eventParser c = Some p ∧ heapParsers h !! p = Some o ∧
      setupLookupTable this h
      = (built this p o c (events c) h, buildOutcome (loadOf o) (events c)).
Proof.
  intros Hc Hparser.
  destruct (decide (size (lookupTable c) = 0)) as [Hs|Hs].
  - destruct (eventParser c) as [p|] eqn:Hp.
    + destruct (Hparser p eq_refl) as [o Ho]. right. right. exists p, o.
      split; [done|]. split; [done|]. by apply setupLookupTable_empty.
    + destruct (events c) as [|evt evs] eqn:Hev.
      * left. by apply (setupLookupTable_no_events _ _ c).
      * right. left. by apply (setupLookupTable_unattached _ _ c evt evs).
  - left. by apply (setupLookupTable_built _ _ c).
Qed.

(** X4: on a trace with an empty index and no parser attached,
    [setupLookupTable] throws a TypeError at the first event and leaves the
    store as it was; when the trace has no events it returns, parser or
    not. *)
Theorem setupLookupTable_without_parser h this c :
  heapConnections h !! this = Some c ->
  lookupTable c = ∅ ->
  eventParser c = None ->
  (events c = [] -> setupLookupTable this h = (h, Return tt)) ∧
  (events c ≠ [] -> setupLookupTable this h = (h, Throw TypeError)).
Proof.
  intros Hc Hempty Hp.
  assert (Hs : size (lookupTable c) = 0) by (rewrite Hempty; apply map_size_empty).
  split.
  - intros Hev. by apply (setupLookupTable_no_events _ _ c).
  - intros Hev. destruct (events c) as [|evt evs] eqn:E; [done|].
    by apply (setupLookupTable_unattached _ _ c evt evs).
Qed.

Lemma setupLookupTable_without_parser_witness :
  setupLookupTable 0 Scenario.blank = (Scenario.blank, Return tt) ∧
  setupLookupTable 0 Scenario.unparsed = (Scenario.unparsed, Throw TypeError).
Proof.
  split.
  - exact (proj1 (setupLookupTable_without_parser Scenario.blank 0
                    Scenario.constructedTrace eq_refl eq_refl eq_refl) eq_refl).
  - refine (proj2 (setupLookupTable_without_parser Scenario.unparsed 0
                     Scenario.unparsedTrace eq_refl eq_refl eq_refl) _).
    discriminate.
Defined.

(** X7: whatever [setupLookupTable] does (stop at the guard, build, throw
    for want of a parser, or throw because [load] throws), it leaves the
    groups and every other trace as they were, and of its own trace it
    changes nothing but the index: the events, the parser and the metadata
    are kept.  The parser objects other than the one attached to the trace
    are as they were; the attached one differs at most in its current
    event, which is then an event of the trace.  The call returns or throws
    a TypeError or what [load] threw. *)
Theorem setupLookupTable_frame h this c :
  heapConnections h !! this = Some c ->
  (forall p, eventParser c = Some p -> is_Some (heapParsers h !! p)) ->
  heapGroups (fst (setupLookupTable this h)) = heapGroups h ∧
  (forall t, t ≠ this ->
     heapConnections (fst (setupLookupTable this h)) !! t = heapConnections h !! t) ∧
  (exists c',
     heapConnections (fst (setupLookupTable this h)) !! this = Some c' ∧
     c' = withLookupTable (lookupTable c') c) ∧
  (forall q, eventParser c ≠ Some q ->
     heapParsers (fst (setupLookupTable this h)) !! q = heapParsers h !! q) ∧
  (forall p o,
     eventParser c = Some p -> heapParsers h !! p = Some o ->
     exists o',
       heapParsers (fst (setupLookupTable this h)) !! p = Some o' ∧
       o' = withCurrentEvent (currentEvent o') o ∧
       (currentEvent o' = currentEvent o
        ∨ exists evt, evt ∈ events c ∧ currentEvent o' = Some evt)) ∧
  (snd (setupLookupTable this h) = Return tt
   ∨ snd (setupLookupTable this h) = Throw TypeError
   ∨ snd (setupLookupTable this h) = Throw DataError).
Proof.
  intros Hc Hparser.
  assert (Hsame :
    heapGroups h = heapGroups h ∧
    (forall t, t ≠ this -> heapConnections h !! t = heapConnections h !! t) ∧
    (exists c', heapConnections h !! this = Some c'
                ∧ c' = withLookupTable (lookupTable c') c) ∧
    (forall q, eventParser c ≠ Some q -> heapParsers h !! q = heapParsers h !! q) ∧
    (forall p o,
       eventParser c = Some p -> heapParsers h !! p = Some o ->
       exists o',
         heapParsers h !! p = Some o' ∧
         o' = withCurrentEvent (currentEvent o') o ∧
         (currentEvent o' = currentEvent o
          ∨ exists evt, evt ∈ events c ∧ currentEvent o' = Some evt))).
  { split; [done|]. split; [done|].
    split; [exists c; by rewrite withLookupTable_id|]. split; [done|].
    intros p o _ Ho. exists o. rewrite withCurrentEvent_id. auto. }
  destruct (setupLookupTable_cases _ _ _ Hc Hparser)
    as [->|[->|(p & o & Hp & Ho & ->)]]; simpl.
  - destruct Hsame as (? & ? & ? & ? & ?). repeat split; auto.
  - destruct Hsame as (? & ? & ? & ? & ?). repeat split; auto.
  - pose proof (lookup_lt_Some _ _ _ Hc) as Hlt.
    pose proof (lookup_lt_Some _ _ _ Ho) as Hltp.
    split; [done|].
    split; [intros t Hne; by rewrite list_lookup_insert_ne|].
    split; [eexists; split; [by apply list_lookup_insert_eq|done]|].
    split; [intros q Hq; rewrite list_lookup_insert_ne; [done|congruence]|].
    split.
    + intros p' o' Hp' Ho'. rewrite Hp in Hp'. injection Hp' as <-.
      rewrite Ho in Ho'. injection Ho' as <-.
      eexists. split; [by apply list_lookup_insert_eq|]. split; [done|].
      apply lastLoaded_cases.
    + destruct (buildOutcome_cases (loadOf o) (events c)) as [->| ->]; auto.
Qed.

Lemma setupLookupTable_frame_witness :
  heapGroups (fst (setupLookupTable 0 Scenario.broken)) = heapGroups Scenario.broken ∧
  (forall t, t ≠ 0 ->
     heapConnections (fst (setupLookupTable 0 Scenario.broken)) !! t
     = heapConnections Scenario.broken !! t) ∧
  (exists c',
     heapConnections (fst (setupLookupTable 0 Scenario.broken)) !! 0 = Some c' ∧
     c' = withLookupTable (lookupTable c') Scenario.brokenTrace) ∧
  (forall q, eventParser Scenario.brokenTrace ≠ Some q ->
     heapParsers (fst (setupLookupTable 0 Scenario.broken)) !! q
     = heapParsers Scenario.broken !! q) ∧
  (forall p o,
     eventParser Scenario.brokenTrace = Some p ->
     heapParsers Scenario.broken !! p = Some o ->
     exists o',
       heapParsers (fst (setupLookupTable 0 Scenario.broken)) !! p = Some o' ∧
       o' = withCurrentEvent (currentEvent o') o ∧
       (currentEvent o' = currentEvent o
        ∨ exists evt, evt ∈ events Scenario.brokenTrace ∧ currentEvent o' = Some evt)) ∧
  (snd (setupLookupTable 0 Scenario.broken) = Return tt
   ∨ snd (setupLookupTable 0 Scenario.broken) = Throw TypeError
   ∨ snd (setupLookupTable 0 Scenario.broken) = Throw DataError).
Proof.
  refine (setupLookupTable_frame Scenario.broken 0 Scenario.brokenTrace eq_refl _).
  intros p Hp. injection Hp as <-. by eexists.
Defined.

Lemma loadOf_withCurrentEvent current o :
  loadOf (withCurrentEvent current o) = loadOf o.
Proof. reflexivity. Qed.

(** X5: a trace with a parser and an empty index is built, its events are
    replaced by [evs'], and it is built again.  When the first build got
    through at least one event the second is a no-op and every lookup still
    answers from the events the first build got through; when it got
    through none (the trace had no events, or [load] threw on the first)
    the second build indexes [evs'], as far as it gets.  Both builds return
    when [load] returns on the events they see. *)
Theorem rebuild_after_setEvents h this c p o evs' :
  heapConnections h !! this = Some c ->
  lookupTable c = ∅ ->
  eventParser c = Some p ->
  heapParsers h !! p = Some o ->
  exists h1 r1 h2 h3 r3,
    setupLookupTable this h = (h1, r1) ∧
    setEvents this evs' h1 = (h2, Return tt) ∧
    setupLookupTable this h2 = (h3, r3) ∧
    getEvents this h3 = (h3, Return evs') ∧
    (forall cat ty,
       lookup this cat ty h3
       = (h3, Return (filter (keyed o cat ty)
                        (if decide (resolved (loadOf o) (events c) = [])
                         then resolved (loadOf o) evs'
                         else resolved (loadOf o) (events c))))) ∧
    (resolved (loadOf o) (events c) ≠ [] -> h3 = h2 ∧ r3 = Return tt) ∧
    (r1 = Return tt ∨ r1 = Throw DataError) ∧
    (r3 = Return tt ∨ r3 = Throw DataError) ∧
    (Forall (fun evt => is_Some (loadOf o evt)) (events c) -> r1 = Return tt) ∧
    (Forall (fun evt => is_Some (loadOf o evt)) evs' -> r3 = Return tt).
Proof.
  intros Hc Hempty Hp Ho.
  assert (Hs : size (lookupTable c) = 0) by (rewrite Hempty; apply map_size_empty).
  pose proof (built_connection _ _ p o _ (events c) Hc) as Hc1.
  pose proof (built_parser _ this p o c (events c) Ho) as Ho1.
  set (T := buildTable (loadOf o) (events c) (lookupTable c)) in *.
  set (o1 := withCurrentEvent (lastLoaded (loadOf o) (events c) (currentEvent o)) o) in *.
  set (h1 := built this p o c (events c) h) in *.
  assert (E1 : setupLookupTable this h = (h1, buildOutcome (loadOf o) (events c)))
    by (by apply setupLookupTable_empty).
  clearbody h1.
  set (c2 := withEvents evs' (withLookupTable T c)).
  set (h2 := setHeapConnections (<[this := c2]> (heapConnections h1)) h1).
  assert (E2 : setEvents this evs' h1 = (h2, Return tt))
    by (by apply setEvents_at).
  assert (Hc2 : heapConnections h2 !! this = Some c2).
  { unfold h2. simpl. apply list_lookup_insert_eq. by eapply lookup_lt_Some. }
  assert (Ho2 : heapParsers h2 !! p = Some o1) by done.
  clearbody h2.
  destruct (decide (resolved (loadOf o) (events c) = [])) as [Hev|Hev].
  - assert (HT : T = ∅) by (unfold T; by rewrite buildTable_nothing).
    pose proof (built_connection _ _ p o1 _ (events c2) Hc2) as Hc3.
    exists h1, (buildOutcome (loadOf o) (events c)), h2,
      (built this p o1 c2 (events c2) h2), (buildOutcome (loadOf o) evs').
    split; [done|]. split; [done|]. split.
    { rewrite <- (loadOf_withCurrentEvent
                    (lastLoaded (loadOf o) (events c) (currentEvent o)) o).
      apply setupLookupTable_empty; try done.
      change (size T = 0). rewrite HT. apply map_size_empty. }
    split; [by rewrite (getEvents_at _ _ _ Hc3)|]. split.
    { intros cat ty. rewrite (lookup_at _ _ _ _ _ Hc3).
      change (lookupTable (withLookupTable (buildTable (loadOf o1) (events c2)
                                              (lookupTable c2)) c2))
        with (buildTable (loadOf o1) evs' T).
      rewrite tableLookup_buildTable, HT, tableLookup_empty. reflexivity. }
    split; [done|].
    split; [apply buildOutcome_cases|]. split; [apply buildOutcome_cases|].
    split; apply buildOutcome_all.
  - exists h1, (buildOutcome (loadOf o) (events c)), h2, h2, (Return tt).
    split; [done|]. split; [done|]. split.
    { apply (setupLookupTable_built _ _ c2); [done|].
      change (size T ≠ 0). intros Hsize. apply map_size_empty_inv in Hsize.
      revert Hsize. apply buildTable_non_empty. by right. }
    split; [by rewrite (getEvents_at _ _ _ Hc2)|]. split.
    { intros cat ty. rewrite (lookup_at _ _ _ _ _ Hc2).
      change (lookupTable c2) with T. unfold T.
      by rewrite tableLookup_buildTable, Hempty, tableLookup_empty. }
    split; [done|].
    split; [apply buildOutcome_cases|]. split; [by left|].
    split; [apply buildOutcome_all|done].
Qed.

Lemma rebuild_after_setEvents_witness :
  exists h1 r1 h2 h3 r3,
    setupLookupTable 0 Scenario.broken = (h1, r1) ∧
    setEvents 0 [Scenario.e2] h1 = (h2, Return tt) ∧
    setupLookupTable 0 h2 = (h3, r3) ∧
    getEvents 0 h3 = (h3, Return [Scenario.e2]) ∧
    (forall cat ty,
       lookup 0 cat ty h3
       = (h3, Return (filter (keyed Scenario.strictParser cat ty)
                        (if decide (resolved (loadOf Scenario.strictParser)
                                      (events Scenario.brokenTrace) = [])
                         then resolved (loadOf Scenario.strictParser) [Scenario.e2]
                         else resolved (loadOf Scenario.strictParser)
                                (events Scenario.brokenTrace))))) ∧
    (resolved (loadOf Scenario.strictParser) (events Scenario.brokenTrace) ≠ [] ->
     h3 = h2 ∧ r3 = Return tt) ∧
    (r1 = Return tt ∨ r1 = Throw DataError) ∧
    (r3 = Return tt ∨ r3 = Throw DataError) ∧
    (Forall (fun evt => is_Some (loadOf Scenario.strictParser evt))
       (events Scenario.brokenTrace) -> r1 = Return tt) ∧
    (Forall (fun evt => is_Some (loadOf Scenario.strictParser evt)) [Scenario.e2] ->
     r3 = Return tt).
Proof.
  exact (rebuild_after_setEvents Scenario.broken 0 Scenario.brokenTrace 1
           Scenario.strictParser [Scenario.e2] eq_refl eq_refl eq_refl eq_refl).
Defined.

(** ** The keys of the index *)

Lemma bucketEvent_category table c t evt c' :
  is_Some (bucketEvent table c t evt !! c') <-> c = c' ∨ is_Some (table !! c').
Proof.
  unfold bucketEvent.
  destruct (table !! c) as [d|] eqn:Ec.
  - rewrite decide_True by eauto. rewrite Ec.
    destruct (d !! t) as [b|] eqn:Et.
    + rewrite decide_True by eauto. rewrite Et.
      destruct (decide (c = c')) as [<-|Hc].
      * rewrite lookup_insert_eq. split; eauto.
      * rewrite lookup_insert_ne by done. tauto.
    + rewrite decide_False by (intros [? ?]; congruence).
      rewrite lookup_insert_eq.
      destruct (decide (c = c')) as [<-|Hc].
      * rewrite lookup_insert_eq. split; eauto.
      * rewrite lookup_insert_ne by done. tauto.
  - rewrite decide_False by (intros [? ?]; congruence).
    rewrite lookup_insert_eq, lookup_empty.
    rewrite decide_False by (intros [? ?]; congruence).
    rewrite lookup_insert_eq.
    destruct (decide (c = c')) as [<-|Hc].
    + rewrite lookup_insert_eq. split; eauto.
    + rewrite !lookup_insert_ne by done. tauto.
Qed.

Lemma bucketOf_bucketEvent table c t evt c' t' :
  bucketOf (bucketEvent table c t evt) c' t'
  = if decide (c = c' ∧ t = t')
    then Some (default [] (bucketOf table c' t') ++ [evt])
    else bucketOf table c' t'.
Proof.
  unfold bucketEvent, bucketOf.
  destruct (table !! c) as [d|] eqn:Ec.
  - rewrite decide_True by eauto. rewrite Ec.
    destruct (d !! t) as [b|] eqn:Et.
    + rewrite decide_True by eauto. rewrite Et.
      destruct (decide (c = c')) as [<-|Hc].
      * rewrite lookup_insert_eq, Ec. simpl.
        destruct (decide (t = t')) as [<-|Ht].
        -- rewrite decide_True by done. by rewrite lookup_insert_eq, Et.
        -- rewrite decide_False by tauto. by rewrite lookup_insert_ne.
      * rewrite decide_False by tauto. by rewrite lookup_insert_ne.
    + rewrite decide_False by (intros [? ?]; congruence).
      rewrite lookup_insert_eq.
      destruct (decide (c = c')) as [<-|Hc].
      * rewrite lookup_insert_eq, Ec. simpl.
        destruct (decide (t = t')) as [<-|Ht].
        -- rewrite decide_True by done. by rewrite lookup_insert_eq, Et.
        -- rewrite decide_False by tauto.
           by rewrite !lookup_insert_ne by done.
      * rewrite decide_False by tauto. by rewrite lookup_insert_ne.
  - rewrite decide_False by (intros [? ?]; congruence).
    rewrite lookup_insert_eq, lookup_empty.
    rewrite decide_False by (intros [? ?]; congruence).
    rewrite lookup_insert_eq.
    destruct (decide (c = c')) as [<-|Hc].
    + rewrite lookup_insert_eq, Ec. simpl.
      destruct (decide (t = t')) as [<-|Ht].
      * rewrite decide_True by done. by rewrite lookup_insert_eq.
      * rewrite decide_False by tauto.
        by rewrite !lookup_insert_ne, lookup_empty by done.
    + rewrite decide_False by tauto.
      by rewrite !lookup_insert_ne by done.
Qed.

Lemma buildTable_category f evs : forall table c,
  is_Some (buildTable f evs table !! c)
  <-> is_Some (table !! c)
      ∨ exists evt view, evt ∈ resolved f evs ∧ f evt = Some view ∧ category view = c.
Proof.
  induction evs as [|evt evs IH]; intros table c; simpl.
  - split; [by left|]. intros [H|(evt & view & Hin & _)]; [done|].
    by apply elem_of_nil in Hin.
  - destruct (f evt) as [view|] eqn:Hv.
    + rewrite IH, bucketEvent_category. split.
      * intros [[Hcat|Hsome]|(e & v & Hin & He & Hcat)].
        -- right. exists evt, view. split; [apply list_elem_of_here|done].
        -- by left.
        -- right. exists e, v. split; [by apply list_elem_of_further|done].
      * intros [Hsome|(e & v & Hin & He & Hcat)]; [by left; right|].
        apply elem_of_cons in Hin as [->|Hin].
        -- left. left. congruence.
        -- right. by exists e, v.
    + split; [by left|]. intros [H|(e & v & Hin & _)]; [done|].
      by apply elem_of_nil in Hin.
Qed.

Lemma bucketOf_buildTable o evs : forall table c t,
  bucketOf (buildTable (loadOf o) evs table) c t
  = match filter (keyed o c t) (resolved (loadOf o) evs) with
    | [] => bucketOf table c t
    | found => Some (default [] (bucketOf table c t) ++ found)
    end.
Proof.
  induction evs as [|evt evs IH]; intros table c t; simpl; [done|].
  destruct (loadOf o evt) as [view|] eqn:Hv; [|done].
  rewrite IH, bucketOf_bucketEvent, filter_cons.
  destruct (decide (keyed o c t evt)) as [K|K]; unfold keyed in K; rewrite Hv in K.
  - rewrite decide_True by done.
    destruct (filter _ (resolved _ evs)); simpl; [done|]. by rewrite <- app_assoc.
  - by rewrite decide_False by done.
Qed.

(** X6: after a build from an empty index, the events the build got
    through being those before the first one on which [load] throws (all of
    them when it throws on none), the index has an entry for a category
    exactly when one of these events resolves to that category, the entry
    has a bucket for a type exactly when one of them resolves to that
    (category, type), and no bucket is empty. *)
Theorem setupLookupTable_keys h this c p o :
  heapConnections h !! this = Some c ->
  lookupTable c = ∅ ->
  eventParser c = Some p ->
  heapParsers h !! p = Some o ->
  exists h' r c',
    setupLookupTable this h = (h', r) ∧
    heapConnections h' !! this = Some c' ∧
    (forall cat,
       is_Some (lookupTable c' !! cat)
       <-> exists evt view,
             evt ∈ resolved (loadOf o) (events c) ∧ loadOf o evt = Some view
             ∧ category view = cat) ∧
    (forall cat d ty,
       lookupTable c' !! cat = Some d ->
       is_Some (d !! ty)
       <-> exists evt view,
             evt ∈ resolved (loadOf o) (events c) ∧ loadOf o evt = Some view
             ∧ category view = cat ∧ name view = ty) ∧
    (forall cat d ty bucket,
       lookupTable c' !! cat = Some d -> d !! ty = Some bucket -> bucket ≠ []) ∧
    (Forall (fun evt => is_Some (loadOf o evt)) (events c) ->
     r = Return tt ∧ resolved (loadOf o) (events c) = events c).
Proof.
  intros Hc Hempty Hp Ho.
  assert (Hs : size (lookupTable c) = 0) by (rewrite Hempty; apply map_size_empty).
  set (evs := resolved (loadOf o) (events c)).
  assert (Hb : forall cat d ty,
    buildTable (loadOf o) (events c) ∅ !! cat = Some d ->
    d !! ty = match filter (keyed o cat ty) evs with
              | [] => None
              | found => Some found
              end).
  { intros cat d ty Hd.
    pose proof (bucketOf_buildTable o (events c) ∅ cat ty) as E.
    unfold bucketOf in E at 1. rewrite Hd in E. simpl in E. rewrite E.
    unfold bucketOf. rewrite lookup_empty. simpl. fold evs.
    by destruct (filter _ evs). }
  exists (built this p o c (events c) h), (buildOutcome (loadOf o) (events c)),
    (withLookupTable (buildTable (loadOf o) (events c) (lookupTable c)) c).
  split; [by apply setupLookupTable_empty|].
  split; [by apply built_connection|].
  change (lookupTable (withLookupTable (buildTable (loadOf o) (events c)
                                          (lookupTable c)) c))
    with (buildTable (loadOf o) (events c) (lookupTable c)).
  rewrite Hempty.
  split; [|split; [|split]].
  - intros cat. rewrite buildTable_category, lookup_empty.
    split; [intros [[? [=]]|H]; exact H|by right].
  - intros cat d ty Hd. rewrite (Hb _ _ _ Hd). split.
    + intros Hsome.
      destruct (filter (keyed o cat ty) evs) as [|evt found] eqn:Hf;
        [by destruct Hsome|].
      assert (Hin : evt ∈ filter (keyed o cat ty) evs)
        by (rewrite Hf; apply list_elem_of_here).
      apply list_elem_of_filter in Hin as [K Hin]. unfold keyed in K.
      destruct (loadOf o evt) as [view|] eqn:Hv; [|done].
      destruct K. by exists evt, view.
    + intros (evt & view & Hin & Hv & Hcat & Hty).
      assert (Hin' : evt ∈ filter (keyed o cat ty) evs).
      { apply list_elem_of_filter. split; [|done]. unfold keyed. by rewrite Hv. }
      destruct (filter (keyed o cat ty) evs); [|by eexists].
      by apply elem_of_nil in Hin'.
  - intros cat d ty bucket Hd Hbucket. rewrite (Hb _ _ _ Hd) in Hbucket.
    destruct (filter (keyed o cat ty) evs); [done|].
    by injection Hbucket as <-.
  - intros Hall. split; [by apply buildOutcome_all|by apply resolved_all].
Qed.

Lemma setupLookupTable_keys_witness :
  exists h' r c',
    setupLookupTable 0 Scenario.fresh = (h', r) ∧
    heapConnections h' !! 0 = Some c' ∧
    (forall cat,
       is_Some (lookupTable c' !! cat)
       <-> exists evt view,
             evt ∈ resolved (loadOf Scenario.parser) (events Scenario.freshTrace)
             ∧ loadOf Scenario.parser evt = Some view ∧ category view = cat) ∧
    (forall cat d ty,
       lookupTable c' !! cat = Some d ->
       is_Some (d !! ty)
       <-> exists evt view,
             evt ∈ resolved (loadOf Scenario.parser) (events Scenario.freshTrace)
             ∧ loadOf Scenario.parser evt = Some view
             ∧ category view = cat ∧ name view = ty) ∧
    (forall cat d ty bucket,
       lookupTable c' !! cat = Some d -> d !! ty = Some bucket -> bucket ≠ []) ∧
    (Forall (fun evt => is_Some (loadOf Scenario.parser evt)) (events Scenario.freshTrace) ->
     r = Return tt
     ∧ resolved (loadOf Scenario.parser) (events Scenario.freshTrace)
       = events Scenario.freshTrace).
Proof.
  exact (setupLookupTable_keys Scenario.fresh 0 Scenario.freshTrace 0 Scenario.parser
           eq_refl eq_refl eq_refl eq_refl).
Defined.

(** ** Construction *)

(** X1: [new QlogConnection(parent)] returns a reference that was not in
    the store, leaves every existing trace, every parser object and the
    record of [load] calls as they were, and appends the new trace to its
    parent's connection list only; the new trace has no events, no parser
    and an empty index. *)
Theorem newQlogConnection_fresh h g grp :
  heapGroups h !! g = Some grp ->
  exists h' t,
    newQlogConnection g h = (h', Return t) ∧
    heapConnections h !! t = None ∧
    (forall x cx, heapConnections h !! x = Some cx -> heapConnections h' !! x = Some cx) ∧
    getEvents t h' = (h', Return []) ∧
    getEventParser t h' = (h', Return None) ∧
    (forall cat ty, lookup t cat ty h' = (h', Return [])) ∧
    heapGroups h' !! g
    = Some {| groupInfo := groupInfo grp; connections := connections grp ++ [t] |} ∧
    (forall g', g' ≠ g -> heapGroups h' !! g' = heapGroups h !! g') ∧
    heapParsers h' = heapParsers h ∧
    loadCalls h' = loadCalls h.
Proof.
  intros Hg.
  pose proof (registered_last h g grp (constructed g)) as Ht.
  exists (registered h g grp (constructed g)), (length (heapConnections h)).
  split; [by apply newQlogConnection_at|].
  split; [by apply lookup_ge_None|].
  split; [intros x cx Hx; by apply registered_old|].
  split; [by rewrite (getEvents_at _ _ _ Ht)|].
  split; [by rewrite (getEventParser_at _ _ _ Ht)|].
  split; [intros cat ty; by rewrite (lookup_at _ _ _ _ _ Ht), tableLookup_empty|].
  split; [simpl; apply list_lookup_insert_eq; by eapply lookup_lt_Some|].
  split; [|done].
  intros g' Hne. simpl. by rewrite list_lookup_insert_ne.
Qed.

Lemma newQlogConnection_fresh_witness :
  exists h' t,
    newQlogConnection 0 Scenario.indexed = (h', Return t) ∧
    heapConnections Scenario.indexed !! t = None ∧
    (forall x cx, heapConnections Scenario.indexed !! x = Some cx ->
                  heapConnections h' !! x = Some cx) ∧
    getEvents t h' = (h', Return []) ∧
    getEventParser t h' = (h', Return None) ∧
    (forall cat ty, lookup t cat ty h' = (h', Return [])) ∧
    heapGroups h' !! 0
    = Some {| groupInfo := groupInfo Scenario.group;
              connections := connections Scenario.group ++ [t] |} ∧
    (forall g', g' ≠ 0 -> heapGroups h' !! g' = heapGroups Scenario.indexed !! g') ∧
    heapParsers h' = heapParsers Scenario.indexed ∧
    loadCalls h' = loadCalls Scenario.indexed.
Proof.
  exact (newQlogConnection_fresh Scenario.indexed 0 Scenario.group eq_refl).
Defined.

(** ** Attaching a parser *)

(** X2: [setEventParser(parser)] returns; afterwards [getEventParser()]
    yields that parser, the parser object is marked [_isVue] and its state
    is what its [init] makes of the trace, which already refers to it; the
    events and the index of the trace, the other parser objects and the
    record of [load] calls are as before: attaching a parser neither calls
    [load] nor touches a built index. *)
Theorem setEventParser_attaches h this c p o :
  heapConnections h !! this = Some c ->
  heapParsers h !! p = Some o ->
  exists h',
    setEventParser this p h = (h', Return tt) ∧
    getEventParser this h' = (h', Return (Some p)) ∧
    heapParsers h' !! p
    = Some {| parser_isVue := true; class := class o;
              state := init (class o) (state o) (withEventParser (Some p) c);
              currentEvent := currentEvent o |} ∧
    (forall q, q ≠ p -> heapParsers h' !! q = heapParsers h !! q) ∧
    loadCalls h' = loadCalls h ∧
    getEvents this h' = (h', Return (events c)) ∧
    (forall cat ty bucket,
       lookup this cat ty h = (h, Return bucket) ->
       lookup this cat ty h' = (h', Return bucket)).
Proof.
  intros Hc Ho.
  pose proof (lookup_lt_Some _ _ _ Hc) as Hlt.
  pose proof (lookup_lt_Some _ _ _ Ho) as Hltp.
  eexists. split; [by apply setEventParser_at|].
  match goal with |- getEventParser _ ?h' = _ ∧ _ =>
    assert (Hc' : heapConnections h' !! this = Some (withEventParser (Some p) c))
      by (simpl; by apply list_lookup_insert_eq)
  end.
  split; [by rewrite (getEventParser_at _ _ _ Hc')|].
  split; [simpl; by apply list_lookup_insert_eq|].
  split; [intros q Hq; simpl; by rewrite list_lookup_insert_ne|].
  split; [done|].
  split; [by rewrite (getEvents_at _ _ _ Hc')|].
  intros cat ty bucket.
  rewrite (lookup_at _ _ _ _ _ Hc), (lookup_at _ _ _ _ _ Hc'). simpl. congruence.
Qed.

Lemma setEventParser_attaches_witness :
  exists h',
    setEventParser 0 0 Scenario.indexed = (h', Return tt) ∧
    getEventParser 0 h' = (h', Return (Some 0)) ∧
    heapParsers h' !! 0
    = Some {| parser_isVue := true; class := class Scenario.parserAfterBuild;
              state := init (class Scenario.parserAfterBuild)
                         (state Scenario.parserAfterBuild)
                         (withEventParser (Some 0) Scenario.indexedTrace);
              currentEvent := currentEvent Scenario.parserAfterBuild |} ∧
    (forall q, q ≠ 0 -> heapParsers h' !! q = heapParsers Scenario.indexed !! q) ∧
    loadCalls h' = loadCalls Scenario.indexed ∧
    getEvents 0 h' = (h', Return (events Scenario.indexedTrace)) ∧
    (forall cat ty bucket,
       lookup 0 cat ty Scenario.indexed = (Scenario.indexed, Return bucket) ->
       lookup 0 cat ty h' = (h', Return bucket)).
Proof.
  exact (setEventParser_attaches Scenario.indexed 0 Scenario.indexedTrace 0
           Scenario.parserAfterBuild eq_refl eq_refl).
Defined.

(** X3: a parser object attached to two traces is bound to the one it was
    attached to last: after [setEventParser] on trace [t1] and then on
    trace [t2] with the same parser, [parseEvent] on [t1] resolves the event
    with the state that [init] derived from [t2], and completes as [load]
    does in that state. *)
Theorem shared_parser_is_rebound h t1 t2 c1 c2 p o evt :
  t1 ≠ t2 ->
  heapConnections h !! t1 = Some c1 ->
  heapConnections h !! t2 = Some c2 ->
  heapParsers h !! p = Some o ->
  exists h1 h2,
    setEventParser t1 p h = (h1, Return tt) ∧
    setEventParser t2 p h1 = (h2, Return tt) ∧
    snd (parseEvent t1 evt h2)
    = completion (load (class o)
                    (init (class o)
                       (init (class o) (state o) (withEventParser (Some p) c1))
                       (withEventParser (Some p) c2))
                    evt) ∧
    snd (parseEvent t2 evt h2) = snd (parseEvent t1 evt h2).
Proof.
  intros Hne Hc1 Hc2 Ho.
  pose proof (lookup_lt_Some _ _ _ Hc1) as Hlt1.
  pose proof (lookup_lt_Some _ _ _ Hc2) as Hlt2.
  pose proof (lookup_lt_Some _ _ _ Ho) as Hltp.
  set (o1 := bound o (withEventParser (Some p) c1)).
  set (h1 := setHeapParsers (<[p := o1]> (heapParsers h))
               (setHeapConnections
                  (<[t1 := withEventParser (Some p) c1]> (heapConnections h)) h)).
  assert (E1 : setEventParser t1 p h = (h1, Return tt)) by (by apply setEventParser_at).
  assert (Hc2' : heapConnections h1 !! t2 = Some c2)
    by (simpl; by rewrite list_lookup_insert_ne).
  assert (Hc1' : heapConnections h1 !! t1 = Some (withEventParser (Some p) c1))
    by (simpl; by apply list_lookup_insert_eq).
  assert (Ho1 : heapParsers h1 !! p = Some o1)
    by (simpl; by apply list_lookup_insert_eq).
  clearbody h1.
  pose proof (lookup_lt_Some _ _ _ Hc2') as Hlt2'.
  pose proof (lookup_lt_Some _ _ _ Ho1) as Hltp'.
  set (o2 := bound o1 (withEventParser (Some p) c2)).
  set (h2 := setHeapParsers (<[p := o2]> (heapParsers h1))
               (setHeapConnections
                  (<[t2 := withEventParser (Some p) c2]> (heapConnections h1)) h1)).
  assert (E2 : setEventParser t2 p h1 = (h2, Return tt)) by (by apply setEventParser_at).
  assert (Hc1'' : heapConnections h2 !! t1 = Some (withEventParser (Some p) c1))
    by (simpl; by rewrite list_lookup_insert_ne).
  assert (Hc2'' : heapConnections h2 !! t2 = Some (withEventParser (Some p) c2))
    by (simpl; by apply list_lookup_insert_eq).
  assert (Ho2 : heapParsers h2 !! p = Some o2)
    by (simpl; by apply list_lookup_insert_eq).
  clearbody h2.
  exists h1, h2. split; [done|]. split; [done|].
  rewrite (parseEvent_attached _ _ _ p o2 _ Hc1'' eq_refl Ho2).
  rewrite (parseEvent_attached _ _ _ p o2 _ Hc2'' eq_refl Ho2).
  done.
Qed.

Lemma shared_parser_is_rebound_witness :
  exists h1 h2,
    setEventParser 0 0 Scenario.twoTraces = (h1, Return tt) ∧
    setEventParser 1 0 h1 = (h2, Return tt) ∧
    snd (parseEvent 0 Scenario.e0 h2)
    = completion (load (class Scenario.unbound)
                    (init (class Scenario.unbound)
                       (init (class Scenario.unbound) (state Scenario.unbound)
                          (withEventParser (Some 0) Scenario.firstTrace))
                       (withEventParser (Some 0) Scenario.secondTrace))
                    Scenario.e0) ∧
    snd (parseEvent 1 Scenario.e0 h2) = snd (parseEvent 0 Scenario.e0 h2).
Proof.
  refine (shared_parser_is_rebound Scenario.twoTraces 0 1 Scenario.firstTrace
            Scenario.secondTrace 0 Scenario.unbound Scenario.e0 _ eq_refl eq_refl eq_refl).
  discriminate.
Defined.

(** ** More on [clone] *)



(** X9: when [JSON.stringify] can write what [clone()] copies, [clone()]
    returns a trace under the same parent with the same title, description
    and field names, with metadata objects that are the JSON round trips of
    the original's (the same objects when JSON represents them), and with
    the parser of the original: [getEventParser] yields the same parser on
    both and [parseEvent] does the same on both, for every event. *)
Theorem clone_copies_metadata_and_shares_parser h this c grp cf conf vp evs :
  heapConnections h !! this = Some c ->
  heapGroups h !! parent c = Some grp ->
  Js.serialize (commonFields c) = Js.Text cf ->
  Js.serialize (configuration c) = Js.Text conf ->
  Js.serialize (vantagePoint c) = Js.Text vp ->
  jsonEvents (events c) = Some evs ->
  exists h' out c',
    clone this h = (h', Return out) ∧
    heapConnections h' !! out = Some c' ∧
    parent c' = parent c ∧ title c' = title c ∧ description c' = description c ∧
    eventFieldNames c' = eventFieldNames c ∧
    commonFields c' = cf ∧ configuration c' = conf ∧ vantagePoint c' = vp ∧
    (Js.representable (commonFields c) = true -> commonFields c' = commonFields c) ∧
    (Js.representable (configuration c) = true -> configuration c' = configuration c) ∧
    (Js.representable (vantagePoint c) = true -> vantagePoint c' = vantagePoint c) ∧
    getEventParser this h' = (h', Return (eventParser c)) ∧
    getEventParser out h' = (h', Return (eventParser c)) ∧
    (forall evt, parseEvent out evt h' = parseEvent this evt h').
Proof.
  intros Hc Hg Ecf Econf Evp Eevs.
  pose proof (registered_last h (parent c) grp (cloned c cf conf vp evs)) as Hout.
  pose proof (registered_old h (parent c) grp (cloned c cf conf vp evs) _ _ Hc) as Hthis.
  assert (Hrep : forall v v',
    Js.serialize v = Js.Text v' -> Js.representable v = true -> v' = v).
  { intros v v' E Hv. rewrite (serialize_representable _ Hv) in E. congruence. }
  eexists _, _, _. split; [by apply (clone_returns _ _ c grp cf conf vp evs)|].
  split; [exact Hout|].
  simpl. do 7 (split; [done|]).
  do 3 (split; [by apply Hrep|]).
  split; [by rewrite (getEventParser_at _ _ _ Hthis)|].
  split; [by rewrite (getEventParser_at _ _ _ Hout)|].
  intros evt. unfold parseEvent.
  rewrite (bind_Return _ _ _ _ _ (getConnection_at _ _ _ Hout)).
  by rewrite (bind_Return _ _ _ _ _ (getConnection_at _ _ _ Hthis)).
Qed.

Lemma clone_copies_metadata_and_shares_parser_witness :
  exists h' out c',
    clone 0 Scenario.indexed = (h', Return out) ∧
    heapConnections h' !! out = Some c' ∧
    parent c' = parent Scenario.indexedTrace ∧
    title c' = title Scenario.indexedTrace ∧
    description c' = description Scenario.indexedTrace ∧
    eventFieldNames c' = eventFieldNames Scenario.indexedTrace ∧
    commonFields c' = Js.Object [] ∧
    configuration c' = configuration Scenario.indexedTrace ∧
    vantagePoint c' = Scenario.client ∧
    (Js.representable (commonFields Scenario.indexedTrace) = true ->
     commonFields c' = commonFields Scenario.indexedTrace) ∧
    (Js.representable (configuration Scenario.indexedTrace) = true ->
     configuration c' = configuration Scenario.indexedTrace) ∧
    (Js.representable (vantagePoint Scenario.indexedTrace) = true ->
     vantagePoint c' = vantagePoint Scenario.indexedTrace) ∧
    getEventParser 0 h' = (h', Return (eventParser Scenario.indexedTrace)) ∧
    getEventParser out h' = (h', Return (eventParser Scenario.indexedTrace)) ∧
    (forall evt, parseEvent out evt h' = parseEvent 0 evt h').
Proof.
  exact (clone_copies_metadata_and_shares_parser Scenario.indexed 0
           Scenario.indexedTrace Scenario.group (Js.Object [])
           (configuration Scenario.indexedTrace) Scenario.client [Scenario.e0]
           eq_refl eq_refl eq_refl eq_refl eq_refl eq_refl).
Defined.

(** X10: the JSON round trip changes nothing the second time: when
    [JSON.stringify] can write what [clone()] copies, [clone()] returns, a
    [clone()] of the clone returns too, and the second clone holds exactly
    what the first holds, field by field (events, metadata, parser, empty
    index). *)
Theorem clone_of_clone_is_exact h this c grp cf conf vp evs :
  heapConnections h !! this = Some c ->
  heapGroups h !! parent c = Some grp ->
  Js.serialize (commonFields c) = Js.Text cf ->
  Js.serialize (configuration c) = Js.Text conf ->
  Js.serialize (vantagePoint c) = Js.Text vp ->
  jsonEvents (events c) = Some evs ->
  exists h1 out1 h2 out2 c1,
    clone this h = (h1, Return out1) ∧
    clone out1 h1 = (h2, Return out2) ∧
    out1 ≠ out2 ∧
    heapConnections h2 !! out1 = Some c1 ∧
    heapConnections h2 !! out2 = Some c1 ∧
    getEvents out2 h2 = getEvents out1 h2.
Proof.
  intros Hc Hg Ecf Econf Evp Eevs.
  set (c1 := cloned c cf conf vp evs).
  set (h1 := registered h (parent c) grp c1).
  assert (E1 : clone this h = (h1, Return (length (heapConnections h))))
    by (by apply clone_returns).
  assert (Hc1 : heapConnections h1 !! length (heapConnections h) = Some c1)
    by apply registered_last.
  assert (Hg1 : heapGroups h1 !! parent c1
                = Some (addConnection grp (length (heapConnections h)))).
  { simpl. apply list_lookup_insert_eq. by eapply lookup_lt_Some. }
  assert (Hlen : length (heapConnections h1) = S (length (heapConnections h))).
  { simpl. rewrite length_app. simpl. lia. }
  clearbody h1.
  assert (Hsame : cloned c1 cf conf vp evs = c1) by done.
  pose proof (clone_returns h1 _ c1 _ cf conf vp evs Hc1 Hg1
                (serialize_fixed _ _ Ecf) (serialize_fixed _ _ Econf)
                (serialize_fixed _ _ Evp) (jsonEvents_fixed _ _ Eevs)) as E2.
  rewrite Hsame in E2.
  pose proof (registered_last h1 (parent c1)
                (addConnection grp (length (heapConnections h))) c1) as Hout2.
  pose proof (registered_old h1 (parent c1)
                (addConnection grp (length (heapConnections h))) c1 _ _ Hc1) as Hout1.
  eexists h1, _, _, _, c1.
  split; [exact E1|]. split; [exact E2|]. split; [lia|].
  split; [exact Hout1|]. split; [exact Hout2|].
  by rewrite (getEvents_at _ _ _ Hout1), (getEvents_at _ _ _ Hout2).
Qed.

Lemma clone_of_clone_is_exact_witness :
  exists h1 out1 h2 out2 c1,
    clone 0 Scenario.sparse = (h1, Return out1) ∧
    clone out1 h1 = (h2, Return out2) ∧
    out1 ≠ out2 ∧
    heapConnections h2 !! out1 = Some c1 ∧
    heapConnections h2 !! out2 = Some c1 ∧
    getEvents out2 h2 = getEvents out1 h2.
Proof.
  exact (clone_of_clone_is_exact Scenario.sparse 0 Scenario.sparseTrace
           Scenario.group (Js.Object []) (configuration Scenario.sparseTrace)
           Scenario.client [[Js.Null]]
           eq_refl eq_refl eq_refl eq_refl eq_refl eq_refl).
Defined.

(** X11: a clone of a trace with a parser can be indexed at once: when
    [JSON.stringify] can write what [clone()] copies, [clone()] returns and
    [setupLookupTable] on the clone indexes the clone's events, which are
    the round trips of the original's, up to the first on which the shared
    parser's [load] throws: the bucket of every (category, type) is the
    subsequence of these events that the parser resolves to that pair.
    When [load] returns on every event of the clone the build returns and
    indexes them all, and they are the original's events when JSON
    represents all their values.  The lookups on the original are as
    before. *)
Theorem clone_then_build h this c grp p o cf conf vp evs :
  heapConnections h !! this = Some c ->
  heapGroups h !! parent c = Some grp ->
  Js.serialize (commonFields c) = Js.Text cf ->
  Js.serialize (configuration c) = Js.Text conf ->
  Js.serialize (vantagePoint c) = Js.Text vp ->
  jsonEvents (events c) = Some evs ->
  eventParser c = Some p ->
  heapParsers h !! p = Some o ->
  exists h1 out h2 r,
    clone this h = (h1, Return out) ∧
    setupLookupTable out h1 = (h2, r) ∧
    (r = Return tt ∨ r = Throw DataError) ∧
    (forall cat ty,
       lookup out cat ty h2
       = (h2, Return (filter (keyed o cat ty)
                        (resolved (loadOf o) (map (map Js.element) (events c)))))) ∧
    (Forall (fun evt => is_Some (loadOf o evt)) (map (map Js.element) (events c)) ->
     r = Return tt ∧
     forall cat ty,
       lookup out cat ty h2
       = (h2, Return (filter (keyed o cat ty) (map (map Js.element) (events c))))) ∧
    (Forall (Forall (fun v => Js.representable v = true)) (events c) ->
     Forall (fun evt => is_Some (loadOf o evt)) (events c) ->
     r = Return tt ∧
     forall cat ty,
       lookup out cat ty h2 = (h2, Return (filter (keyed o cat ty) (events c)))) ∧
    (forall cat ty bucket,
       lookup this cat ty h = (h, Return bucket) ->
       lookup this cat ty h2 = (h2, Return bucket)).
Proof.
  intros Hc Hg Ecf Econf Evp Eevs Hp Ho.
  pose proof (lookup_lt_Some _ _ _ Hc) as Hlt.
  pose proof (jsonEvents_element _ _ Eevs) as Helem.
  set (c1 := cloned c cf conf vp evs).
  set (out := length (heapConnections h)).
  set (h1 := registered h (parent c) grp c1).
  assert (E1 : clone this h = (h1, Return out)) by (by apply clone_returns).
  assert (Hc1 : heapConnections h1 !! out = Some c1) by apply registered_last.
  assert (Hthis1 : heapConnections h1 !! this = Some c) by (by apply registered_old).
  assert (Ho1 : heapParsers h1 !! p = Some o) by done.
  clearbody h1.
  assert (E2 : setupLookupTable out h1
               = (built out p o c1 (events c1) h1, buildOutcome (loadOf o) evs)).
  { apply setupLookupTable_empty; try done. }
  pose proof (built_connection _ _ p o _ (events c1) Hc1) as Hc2.
  assert (Hthis2 : heapConnections (built out p o c1 (events c1) h1) !! this = Some c).
  { unfold built. simpl. rewrite list_lookup_insert_ne by (unfold out; lia). done. }
  assert (Hl : forall cat ty,
    lookup out cat ty (built out p o c1 (events c1) h1)
    = (built out p o c1 (events c1) h1,
       Return (filter (keyed o cat ty) (resolved (loadOf o) evs)))).
  { intros cat ty. rewrite (lookup_at _ _ _ _ _ Hc2).
    change (lookupTable (withLookupTable (buildTable (loadOf o) (events c1)
                                            (lookupTable c1)) c1))
      with (buildTable (loadOf o) evs ∅).
    by rewrite tableLookup_buildTable, tableLookup_empty. }
  exists h1, out, (built out p o c1 (events c1) h1), (buildOutcome (loadOf o) evs).
  split; [done|]. split; [done|]. split; [apply buildOutcome_cases|].
  rewrite <- Helem.
  split; [exact Hl|]. split; [|split].
  - intros Hall. split; [by apply buildOutcome_all|].
    intros cat ty. by rewrite Hl, resolved_all.
  - intros Hrep Hall.
    rewrite (jsonEvents_representable _ Hrep) in Eevs. injection Eevs as <-.
    split; [by apply buildOutcome_all|].
    intros cat ty. by rewrite Hl, resolved_all.
  - intros cat ty bucket.
    rewrite (lookup_at _ _ _ _ _ Hc), (lookup_at _ _ _ _ _ Hthis2). congruence.
Qed.

Lemma clone_then_build_witness :
  exists h1 out h2 r,
    clone 0 Scenario.indexed = (h1, Return out) ∧
    setupLookupTable out h1 = (h2, r) ∧
    (r = Return tt ∨ r = Throw DataError) ∧
    (forall cat ty,
       lookup out cat ty h2
       = (h2, Return (filter (keyed Scenario.parserAfterBuild cat ty)
                        (resolved (loadOf Scenario.parserAfterBuild)
                           (map (map Js.element) (events Scenario.indexedTrace)))))) ∧
    (Forall (fun evt => is_Some (loadOf Scenario.parserAfterBuild evt))
       (map (map Js.element) (events Scenario.indexedTrace)) ->
     r = Return tt ∧
     forall cat ty,
       lookup out cat ty h2
       = (h2, Return (filter (keyed Scenario.parserAfterBuild cat ty)
                        (map (map Js.element) (events Scenario.indexedTrace))))) ∧
    (Forall (Forall (fun v => Js.representable v = true)) (events Scenario.indexedTrace) ->
     Forall (fun evt => is_Some (loadOf Scenario.parserAfterBuild evt))
       (events Scenario.indexedTrace) ->
     r = Return tt ∧
     forall cat ty,
       lookup out cat ty h2
       = (h2, Return (filter (keyed Scenario.parserAfterBuild cat ty)
                        (events Scenario.indexedTrace)))) ∧
    (forall cat ty bucket,
       lookup 0 cat ty Scenario.indexed = (Scenario.indexed, Return bucket) ->
       lookup 0 cat ty h2 = (h2, Return bucket)).
Proof.
  exact (clone_then_build Scenario.indexed 0 Scenario.indexedTrace Scenario.group 0
           Scenario.parserAfterBuild (Js.Object [])
           (configuration Scenario.indexedTrace) Scenario.client [Scenario.e0]
           eq_refl eq_refl eq_refl eq_refl eq_refl eq_refl eq_refl eq_refl).
Defined.

(** X12: [clone()] keeps the positional layout of the events: when
    [JSON.stringify] can write what [clone()] copies, the clone has as many
    events as the original, each with as many fields, and the field at each
    position is the round trip of the original's, which is the same value
    when JSON represents it, [null] when it is [undefined], a function or a
    number that is not finite, and [0] when it is [-0]. *)
Theorem clone_keeps_positions h this c grp cf conf vp evs :
  heapConnections h !! this = Some c ->
  heapGroups h !! parent c = Some grp ->
  Js.serialize (commonFields c) = Js.Text cf ->
  Js.serialize (configuration c) = Js.Text conf ->
  Js.serialize (vantagePoint c) = Js.Text vp ->
  jsonEvents (events c) = Some evs ->
  exists h' out evs',
    clone this h = (h', Return out) ∧
    getEvents out h' = (h', Return evs') ∧
    length evs' = length (events c) ∧
    forall i evt,
      events c !! i = Some evt ->
      exists evt',
        evs' !! i = Some evt' ∧
        length evt' = length evt ∧
        forall j v,
          evt !! j = Some v ->
          evt' !! j = Some (Js.element v) ∧
          (Js.representable v = true -> evt' !! j = Some v) ∧
          (v = Js.Undefined ∨ (exists n, v = Js.Number n ∧ Js.isFinite n = false) ->
           evt' !! j = Some Js.Null) ∧
          (v = Js.Function -> evt' !! j = Some Js.Null) ∧
          (v = Js.Number Js.NegativeZero -> evt' !! j = Some (Js.Number Js.zero)).
Proof.
  intros Hc Hg Ecf Econf Evp Eevs.
  pose proof (jsonEvents_element _ _ Eevs) as Helem.
  pose proof (registered_last h (parent c) grp (cloned c cf conf vp evs)) as Hout.
  exists (registered h (parent c) grp (cloned c cf conf vp evs)),
    (length (heapConnections h)), (map (map Js.element) (events c)).
  split; [by apply clone_returns|].
  split; [by rewrite (getEvents_at _ _ _ Hout), Helem|].
  split; [by rewrite length_fmap|].
  intros i evt Hi. exists (map Js.element evt). unfold RawEvent in *.
  split; [by rewrite list_lookup_fmap, Hi|]. split; [by rewrite length_fmap|].
  intros j v Hj.
  assert (E : map Js.element evt !! j = Some (Js.element v))
    by (by rewrite list_lookup_fmap, Hj).
  split; [done|]. split; [|split; [|split]].
  - intros Hv. rewrite E. unfold Js.element.
    by rewrite (serialize_representable _ Hv).
  - intros [->|(n & -> & Hn)]; rewrite E; [done|].
    unfold Js.element. by destruct n.
  - intros ->. by rewrite E.
  - intros ->. by rewrite E.
Qed.

Lemma clone_keeps_positions_witness :
  exists h' out evs',
    clone 0 Scenario.sparse = (h', Return out) ∧
    getEvents out h' = (h', Return evs') ∧
    length evs' = length (events Scenario.sparseTrace) ∧
    forall i evt,
      events Scenario.sparseTrace !! i = Some evt ->
      exists evt',
        evs' !! i = Some evt' ∧
        length evt' = length evt ∧
        forall j v,
          evt !! j = Some v ->
          evt' !! j = Some (Js.element v) ∧
          (Js.representable v = true -> evt' !! j = Some v) ∧
          (v = Js.Undefined ∨ (exists n, v = Js.Number n ∧ Js.isFinite n = false) ->
           evt' !! j = Some Js.Null) ∧
          (v = Js.Function -> evt' !! j = Some Js.Null) ∧
          (v = Js.Number Js.NegativeZero -> evt' !! j = Some (Js.Number Js.zero)).
Proof.
  exact (clone_keeps_positions Scenario.sparse 0 Scenario.sparseTrace
           Scenario.group (Js.Object []) (configuration Scenario.sparseTrace)
           Scenario.client [[Js.Null]]
           eq_refl eq_refl eq_refl eq_refl eq_refl eq_refl).
Defined.

(** ** What every reachable store satisfies *)

Lemma insert_is_Some {A : Type} (l : list A) (i j : loc) x :
  is_Some (l !! i) -> is_Some (<[j := x]> l !! i).
Proof. rewrite !lookup_lt_is_Some, length_insert. done. Qed.

Lemma marked_insert (l : list ParserObject) (p : loc) o1 :
  (forall o, l !! p = Some o -> parser_isVue o = true -> parser_isVue o1 = true) ->
  forall q o0,
    l !! q = Some o0 -> parser_isVue o0 = true ->
    exists o', <[p := o1]> l !! q = Some o' ∧ parser_isVue o' = true.
Proof.
  intros H1 q o0 Hq Hv. destruct (decide (p = q)) as [<-|Hne].
  - rewrite list_lookup_insert_eq by (by eapply lookup_lt_Some). eauto.
  - rewrite list_lookup_insert_ne by done. eauto.
Qed.

Lemma consistent_parsers h h' :
  heapConnections h' = heapConnections h ->
  heapGroups h' = heapGroups h ->
  (forall q o, heapParsers h !! q = Some o -> parser_isVue o = true ->
     exists o', heapParsers h' !! q = Some o' ∧ parser_isVue o' = true) ->
  consistent h -> consistent h'.
Proof.
  intros Hconns Hgroups Hmono I t c Ht. rewrite Hconns in Ht.
  destruct (I t c Ht) as (He & Hl & Hg & Hin & Hp).
  rewrite Hgroups. do 4 (split; [done|]).
  intros p Hparser. destruct (Hp p Hparser) as (o & Ho & Hv). eauto.
Qed.

Lemma consistent_update h h' x c c' :
  consistent h ->
  heapConnections h !! x = Some c ->
  heapConnections h' = <[x := c']> (heapConnections h) ->
  heapGroups h' = heapGroups h ->
  (forall q o, heapParsers h !! q = Some o -> parser_isVue o = true ->
     exists o', heapParsers h' !! q = Some o' ∧ parser_isVue o' = true) ->
  events_isVue c' = true ->
  lookupTable_isVue c' = true ->
  is_Some (heapGroups h !! parent c') ->
  (forall p, eventParser c' = Some p ->
     exists o, heapParsers h' !! p = Some o ∧ parser_isVue o = true) ->
  consistent h'.
Proof.
  intros I Hx Hconns Hgroups Hmono He' Hl' Hparent Hp' t c0 Ht.
  rewrite Hconns in Ht. rewrite Hgroups.
  destruct (decide (x = t)) as [<-|Hne].
  - rewrite list_lookup_insert_eq in Ht by (by eapply lookup_lt_Some).
    injection Ht as <-. destruct (I x c Hx) as (_ & _ & _ & Hin & _).
    by do 4 (split; [done|]).
  - rewrite list_lookup_insert_ne in Ht by done.
    destruct (I t c0 Ht) as (He & Hl & Hg & Hin & Hp).
    do 4 (split; [done|]).
    intros p Hparser. destruct (Hp p Hparser) as (o & Ho & Hv). eauto.
Qed.

Lemma consistent_registered h g grp c' :
  consistent h ->
  heapGroups h !! g = Some grp ->
  events_isVue c' = true ->
  lookupTable_isVue c' = true ->
  parent c' = g ->
  (forall p, eventParser c' = Some p ->
     exists o, heapParsers h !! p = Some o ∧ parser_isVue o = true) ->
  consistent (registered h g grp c').
Proof.
  intros I Hg He' Hl' Hparent Hp' t c0 Ht.
  pose proof (lookup_lt_Some _ _ _ Hg) as Hlt.
  simpl in *. apply lookup_app_Some in Ht as [Ht|[Hge Ht]].
  - destruct (I t c0 Ht) as (He & Hl & Hg0 & (g1 & grp1 & Hg1 & Hin) & Hp).
    do 2 (split; [done|]). split; [by apply insert_is_Some|]. split; [|done].
    destruct (decide (g = g1)) as [E|Hne].
    + subst g1. exists g, (addConnection grp (length (heapConnections h))).
      split; [by apply list_lookup_insert_eq|].
      pose proof (eq_trans (eq_sym Hg) Hg1) as Hsame. injection Hsame as <-.
      simpl. apply elem_of_app. by left.
    + exists g1, grp1. by rewrite list_lookup_insert_ne.
  - destruct (t - length (heapConnections h)) as [|k] eqn:Ek; [|done].
    simpl in Ht. injection Ht as <-.
    assert (t = length (heapConnections h)) as -> by lia.
    do 2 (split; [done|]). rewrite Hparent.
    split; [rewrite list_lookup_insert_eq by done; by eexists|]. split; [|done].
    exists g, (addConnection grp (length (heapConnections h))).
    split; [by apply list_lookup_insert_eq|].
    simpl. apply elem_of_app. right. apply list_elem_of_here.
Qed.

Lemma parseEvent_store this evt h :
  heapConnections (fst (parseEvent this evt h)) = heapConnections h ∧
  heapGroups (fst (parseEvent this evt h)) = heapGroups h ∧
  (forall q o, heapParsers h !! q = Some o -> parser_isVue o = true ->
     exists o', heapParsers (fst (parseEvent this evt h)) !! q = Some o'
                ∧ parser_isVue o' = true).
Proof.
  destruct (heapConnections h !! this) as [c|] eqn:Hc; cycle 1.
  { unfold parseEvent, bind, getConnection. rewrite Hc. simpl. eauto. }
  destruct (eventParser c) as [p|] eqn:Hp; cycle 1.
  { rewrite (parseEvent_unattached _ _ _ _ Hc Hp). simpl. eauto. }
  destruct (heapParsers h !! p) as [o|] eqn:Ho; cycle 1.
  { unfold parseEvent, bind, getConnection, callLoad, bind, getParser.
    rewrite Hc. simpl. rewrite Hp, Ho. simpl. eauto. }
  rewrite (parseEvent_attached _ _ _ _ _ _ Hc Hp Ho). simpl.
  split; [done|]. split; [done|].
  apply marked_insert. intros o0 Ho0. by rewrite Ho in Ho0; injection Ho0 as <-.
Qed.

Lemma fst_discard {A : Type} (m : M A) h : fst (bind m (fun _ => ret tt) h) = fst (m h).
Proof. unfold bind. by destruct (m h) as [h' [a| |]]. Qed.

Lemma consistent_setEventParser this p h :
  consistent h -> consistent (fst (setEventParser this p h)).
Proof.
  intros I.
  destruct (heapParsers h !! p) as [o|] eqn:Ho; cycle 1.
  { unfold setEventParser, bind, modifyParser. by rewrite Ho. }
  pose proof (lookup_lt_Some _ _ _ Ho) as Hlt.
  destruct (heapConnections h !! this) as [c|] eqn:Hc.
  - rewrite (setEventParser_at _ _ _ _ _ Hc Ho). simpl.
    destruct (I this c Hc) as (He & Hl & Hg & _ & _).
    eapply (consistent_update h _ this c (withEventParser (Some p) c));
      try done.
    + simpl. by apply marked_insert.
    + simpl. intros q [= <-]. rewrite list_lookup_insert_eq by done. eauto.
  - unfold setEventParser, bind, modifyParser, modifyConnection.
    rewrite Ho. simpl. rewrite Hc. simpl.
    apply (consistent_parsers h); [done|done| |done].
    simpl. by apply marked_insert.
Qed.

Lemma consistent_setupLookupTable this h :
  consistent h -> consistent (fst (setupLookupTable this h)).
Proof.
  intros I.
  destruct (heapConnections h !! this) as [c|] eqn:Hc; cycle 1.
  { unfold setupLookupTable, bind, getConnection. by rewrite Hc. }
  destruct (I this c Hc) as (He & Hl & Hg & _ & Hp).
  destruct (setupLookupTable_cases h this c Hc)
    as [->|[->|(p & o & Hparser & Ho & ->)]]; try done.
  { intros p Hparser. destruct (Hp p Hparser) as (o & Ho & _). eauto. }
  assert (Hmono : forall q o0,
    heapParsers h !! q = Some o0 -> parser_isVue o0 = true ->
    exists o', heapParsers (built this p o c (events c) h) !! q = Some o'
               ∧ parser_isVue o' = true).
  { simpl. apply marked_insert.
    intros o0 Ho0. by rewrite Ho in Ho0; injection Ho0 as <-. }
  eapply (consistent_update h _ this c
            (withLookupTable (buildTable (loadOf o) (events c) (lookupTable c)) c));
    try done.
  simpl. intros q Hq. destruct (Hp q Hq) as (o0 & Ho0 & Hv).
  by apply (Hmono q o0).
Qed.

Lemma consistent_modifyConnection x f h :
  (forall c, (is_Some (heapGroups h !! parent c) -> is_Some (heapGroups h !! parent (f c)))
             ∧ eventParser (f c) = eventParser c
             ∧ lookupTable_isVue (f c) = lookupTable_isVue c
             ∧ (events_isVue c = true -> events_isVue (f c) = true)) ->
  consistent h -> consistent (fst (modifyConnection x f h)).
Proof.
  intros Hf I. unfold modifyConnection.
  destruct (heapConnections h !! x) as [c|] eqn:Hc; [|done]. simpl.
  destruct (Hf c) as (Hparent & Hparser & Hl' & He').
  destruct (I x c Hc) as (He & Hl & Hg & _ & Hp).
  eapply (consistent_update h _ x c (f c)); try done; eauto; try congruence.
  rewrite Hparser. exact Hp.
Qed.

Lemma consistent_perform op h :
  consistent h ->
  match op with
  | OpNew g | OpAssignParent _ g => is_Some (heapGroups h !! g)
  | _ => True
  end ->
  consistent (fst (perform op h)).
Proof.
  intros I Hop.
  destruct op as [g|t g|t v|t v|t names|t v|t v|t v|t|t p|t|t evt|t evs|t|t|t cat ty];
    simpl; rewrite ?fst_discard;
    try (apply consistent_modifyConnection; [by intros []|done]).
  - destruct Hop as [grp Hg]. rewrite (newQlogConnection_at _ _ _ Hg).
    by apply consistent_registered.
  - destruct (heapConnections h !! t) as [c|] eqn:Hc; cycle 1.
    { unfold clone, bind, getConnection. by rewrite Hc. }
    destruct (I t c Hc) as (_ & _ & (grp & Hg) & _ & Hp).
    destruct (clone_registers _ _ _ _ Hc Hg)
      as (c' & -> & _ & _ & He' & Hl' & Hparent & Hparser).
    apply consistent_registered; try done.
    intros p Hp'. apply Hp. destruct Hparser as [E|E]; congruence.
  - by apply consistent_setEventParser.
  - unfold getEventParser, bind, getConnection.
    by destruct (heapConnections h !! t).
  - destruct (parseEvent_store t evt h) as (E1 & E2 & E3).
    by apply (consistent_parsers h).
  - unfold getEvents, bind, getConnection.
    by destruct (heapConnections h !! t).
  - by apply consistent_setupLookupTable.
  - unfold lookup, bind, getConnection.
    destruct (heapConnections h !! t) as [c|]; simpl; [|done].
    destruct (lookupTable c !! cat) as [d|]; simpl; [|done].
    by destruct (d !! ty).
Qed.



(** ** The connection list of the parent *)

Lemma parented_frame h h' :
  heapGroups h' = heapGroups h ->
  (forall t c', heapConnections h' !! t = Some c' ->
     exists c, heapConnections h !! t = Some c ∧ parent c' = parent c) ->
  parented h -> parented h'.
Proof.
  intros Hgroups Hconns P t c' Ht.
  destruct (Hconns t c' Ht) as (c & Hc & ->). rewrite Hgroups. by apply P.
Qed.

Lemma parented_update h h' x c c' :
  heapConnections h !! x = Some c ->
  heapConnections h' = <[x := c']> (heapConnections h) ->
  heapGroups h' = heapGroups h ->
  parent c' = parent c ->
  parented h -> parented h'.
Proof.
  intros Hx Hconns Hgroups Hparent. apply parented_frame; [done|].
  intros t c0 Ht. rewrite Hconns in Ht.
  destruct (decide (x = t)) as [<-|Hne].
  - rewrite list_lookup_insert_eq in Ht by (by eapply lookup_lt_Some).
    injection Ht as <-. eauto.
  - rewrite list_lookup_insert_ne in Ht by done. eauto.
Qed.

Lemma parented_registered h g grp c' :
  parented h ->
  heapGroups h !! g = Some grp ->
  parent c' = g ->
  parented (registered h g grp c').
Proof.
  intros P Hg Hparent t c0 Ht.
  pose proof (lookup_lt_Some _ _ _ Hg) as Hlt.
  simpl in *. apply lookup_app_Some in Ht as [Ht|[Hge Ht]].
  - destruct (P t c0 Ht) as (grp0 & Hg0 & Hin).
    destruct (decide (g = parent c0)) as [E|Hne].
    + rewrite <- E in *. rewrite list_lookup_insert_eq by done.
      eexists. split; [done|]. simpl.
      pose proof (eq_trans (eq_sym Hg) Hg0) as Hsame. injection Hsame as <-.
      apply elem_of_app. by left.
    + rewrite list_lookup_insert_ne by done. eauto.
  - destruct (t - length (heapConnections h)) as [|k] eqn:Ek; [|done].
    simpl in Ht. injection Ht as <-.
    assert (t = length (heapConnections h)) as -> by lia.
    rewrite Hparent, list_lookup_insert_eq by done.
    eexists. split; [done|]. simpl. apply elem_of_app. right.
    apply list_elem_of_here.
Qed.

Lemma parented_modifyConnection x f h :
  (forall c, parent (f c) = parent c) ->
  parented h -> parented (fst (modifyConnection x f h)).
Proof.
  intros Hf P. unfold modifyConnection.
  destruct (heapConnections h !! x) as [c|] eqn:Hc; [|done]. simpl.
  by apply (parented_update h _ x c (f c)).
Qed.

Lemma parented_perform op h :
  consistent h ->
  parented h ->
  match op with OpNew g => is_Some (heapGroups h !! g) | _ => True end ->
  assignsParent op = false ->
  parented (fst (perform op h)).
Proof.
  intros I P Hop Hkeeps.
  destruct op as [g|t g|t v|t v|t names|t v|t v|t v|t|t p|t|t evt|t evs|t|t|t cat ty];
    simpl; rewrite ?fst_discard; try discriminate Hkeeps;
    try (apply parented_modifyConnection; [by intros []|done]).
  - destruct Hop as [grp Hg]. rewrite (newQlogConnection_at _ _ _ Hg).
    by apply parented_registered.
  - destruct (heapConnections h !! t) as [c|] eqn:Hc; cycle 1.
    { unfold clone, bind, getConnection. by rewrite Hc. }
    destruct (P t c Hc) as (grp & Hg & _).
    destruct (clone_registers _ _ _ _ Hc Hg)
      as (c' & -> & _ & _ & _ & _ & Hparent & _).
    by apply parented_registered.
  - destruct (heapParsers h !! p) as [o|] eqn:Ho; cycle 1.
    { unfold setEventParser, bind, modifyParser. by rewrite Ho. }
    destruct (heapConnections h !! t) as [c|] eqn:Hc.
    + rewrite (setEventParser_at _ _ _ _ _ Hc Ho). simpl.
      by apply (parented_update h _ t c (withEventParser (Some p) c)).
    + unfold setEventParser, bind, modifyParser, modifyConnection.
      rewrite Ho. simpl. rewrite Hc. simpl.
      apply (parented_frame h); [done| |done]. simpl. eauto.
  - unfold getEventParser, bind, getConnection.
    by destruct (heapConnections h !! t).
  - destruct (parseEvent_store t evt h) as (E1 & E2 & _).
    apply (parented_frame h); [done| |done]. rewrite E1. eauto.
  - unfold getEvents, bind, getConnection.
    by destruct (heapConnections h !! t).
  - destruct (heapConnections h !! t) as [c|] eqn:Hc; cycle 1.
    { unfold setupLookupTable, bind, getConnection. by rewrite Hc. }
    destruct (I t c Hc) as (_ & _ & _ & _ & Hp).
    destruct (setupLookupTable_cases h t c Hc)
      as [->|[->|(p & o & Hparser & Ho & ->)]]; try done.
    { intros p Hparser. destruct (Hp p Hparser) as (o & Ho & _). eauto. }
    by apply (parented_update h _ t c
                (withLookupTable (buildTable (loadOf o) (events c) (lookupTable c)) c)).
  - unfold lookup, bind, getConnection.
    destruct (heapConnections h !! t) as [c|]; simpl; [|done].
    destruct (lookupTable c !! cat) as [d|]; simpl; [|done].
    by destruct (d !! ty).
Qed.

Example reparenting_breaks_parent_list :
  admissible Scenario.reparenting Scenario.start ∧
  heapConnections (runOps Scenario.reparenting Scenario.start) !! 0
  = Some (withParent 1 (constructed 0)) ∧
  heapGroups (runOps Scenario.reparenting Scenario.start) !! 1
  = Some {| groupInfo := Js.Object []; connections := [] |}.
Proof. vm_compute. repeat split; eauto. Qed.

(** X14: the class itself never changes the parent of a trace: in every
    sequence of calls and public field assignments from a consistent store
    that hands over groups of the store only and never assigns to
    [parent], every trace stays in the connection list of its parent
    group, clones included.  An assignment to [parent] breaks this: the
    trace stays in the list of the group it was constructed under and is
    not entered in the list of its new parent. *)
Theorem parent_lists_kept :
  (forall ops h,
     consistent h -> parented h ->
     admissible ops h -> keepsParents ops ->
     parented (runOps ops h)) ∧
  admissible Scenario.reparenting Scenario.start ∧
  ¬ parented (runOps Scenario.reparenting Scenario.start).
Proof.
  split; [|split].
  - induction ops as [|op ops IH]; intros h I P Hadm Hkeeps; simpl; [done|].
    destruct Hadm as [Hop Hrest].
    apply andb_prop in Hkeeps as [Hk Hkeeps].
    apply negb_true_iff in Hk.
    apply IH; try done.
    + by apply consistent_perform.
    + apply parented_perform; try done. by destruct op.
  - apply reparenting_breaks_parent_list.
  - intros P.
    destruct reparenting_breaks_parent_list as (_ & Hc & Hg).
    destruct (P 0 _ Hc) as (grp & Hgrp & Hin).
    pose proof (eq_trans (eq_sym Hg) Hgrp) as Hsame. injection Hsame as <-.
    by apply elem_of_nil in Hin.
Qed.

Lemma parent_lists_kept_witness :
  parented
    (runOps (Scenario.cloning
             ++ [OpSetEvents 1 [Scenario.e1]; OpSetupLookupTable 1; OpClone 1;
                 OpNew 1; OpParseEvent 3 Scenario.e0])
       Scenario.start).
Proof.
  apply (proj1 parent_lists_kept).
  - intros t c Ht. destruct t; discriminate Ht.
  - intros t c Ht. destruct t; discriminate Ht.
  - vm_compute. repeat split; eauto.
  - reflexivity.
Defined.
